(** * PhenoScore: the HPO similarity engine ([SimScorer])

    A shallow embedding of [phenoscore/hpo_phenotype/calc_hpo_sim.py].

    - A [networkx.DiGraph] is a record of its node dictionary (in insertion
      order, with the attribute dictionary of every node) and its edge list.
    - A Python [dict] with string keys is a [gmap string _].
    - numpy floats are modelled by exact rationals ([Qc]); the value [nan]
      (the mean of an empty array) is [None].
    - Python exceptions are the [Raise] results of the [Py] monad, which also
      threads the state of the process: the object [self.hpo_network]
      points to, the dictionary [self.name_to_id_and_reverse] and the graph
      objects allocated by [copy.deepcopy] and [nx.relabel_nodes]. *)

From Stdlib Require Import QArith Qcanon.
From stdpp Require Import numbers strings list gmap fin_maps.

(** ** Exceptions and the state of the process *)

Inductive exn :=
  | KeyError
  | IndexError
  | NetworkXError
  | SystemError.

Inductive result (A : Type) :=
  | Ok (a : A)
  | Raise (e : exn).
Arguments Ok {A} a.
Arguments Raise {A} e.

(** The attribute dictionary of a node.  [name] is present in every term of
    an OBO file; [synonyms] and [alt_id] are optional keys;
    [present_in_patient] is the key [get_graph] adds to its private copy. *)
Record node_data := NodeData {
  name : string;
  synonyms : option (list string);
  alt_id : option (list string);
  present_in_patient : option nat
}.

#[global] Instance node_data_eq_dec : EqDecision node_data.
Proof. solve_decision. Defined.

Record DiGraph := Graph {
  nodes : list (string * node_data);
  edges : list (string * string)
}.

Definition node_ids (G : DiGraph) : list string := (nodes G).*1.

(** Node identifiers are dictionary keys, and [add_edge] adds both ends of an
    edge to the node dictionary. *)
Definition wf_graph (G : DiGraph) : Prop :=
  NoDup (node_ids G) ∧
  ∀ u v, (u, v) ∈ edges G → u ∈ node_ids G ∧ v ∈ node_ids G.

(** A reference to a graph object: the one [self.hpo_network] is bound to, or
    the [n]-th object allocated since. *)
Inductive ref :=
  | SelfNetwork
  | Local (n : nat).

Record world := World {
  hpo_network : DiGraph;
  name_to_id_and_reverse : gmap string string;
  locals : list DiGraph
}.

Definition Py (A : Type) : Type := world → result A * world.

Definition py_ret {A} (a : A) : Py A := λ σ, (Ok a, σ).

Definition py_bind {A B} (m : Py A) (k : A → Py B) : Py B :=
  λ σ, match m σ with
       | (Ok a, σ') => k a σ'
       | (Raise e, σ') => (Raise e, σ')
       end.

Definition raise {A} (e : exn) : Py A := λ σ, (Raise e, σ).

Declare Scope py_scope.
Delimit Scope py_scope with py.
Notation "x ← m ; k" := (py_bind m (λ x, k))
  (at level 20, m at level 100, k at level 200, only parsing) : py_scope.
Notation "m ;; k" := (py_bind m (λ _, k))
  (at level 100, k at level 200, right associativity, only parsing) : py_scope.
Open Scope py_scope.

Definition lift {A} (r : result A) : Py A := λ σ, (r, σ).

(** [for x in l: body x] *)
Fixpoint for_each {A} (l : list A) (body : A → Py unit) : Py unit :=
  match l with
  | [] => py_ret tt
  | x :: l' => body x;; for_each l' body
  end.

Definition deref (r : ref) : Py DiGraph :=
  λ σ, match r with
       | SelfNetwork => (Ok (hpo_network σ), σ)
       | Local n =>
           match locals σ !! n with
           | Some g => (Ok g, σ)
           | None => (Raise SystemError, σ)
           end
       end.

(** In-place mutation of the object behind [r]. *)
Definition mutate (r : ref) (f : DiGraph → DiGraph) : Py unit :=
  λ σ, match r with
       | SelfNetwork =>
           (Ok tt, World (f (hpo_network σ)) (name_to_id_and_reverse σ) (locals σ))
       | Local n =>
           match locals σ !! n with
           | Some g =>
               (Ok tt, World (hpo_network σ) (name_to_id_and_reverse σ)
                             (<[n := f g]> (locals σ)))
           | None => (Raise SystemError, σ)
           end
       end.

Definition alloc (g : DiGraph) : Py ref :=
  λ σ, (Ok (Local (length (locals σ))),
        World (hpo_network σ) (name_to_id_and_reverse σ) (locals σ ++ [g])).

(** [copy.deepcopy(r)] *)
Definition deepcopy (r : ref) : Py ref := g ← deref r; alloc g.

(** [self.name_to_id_and_reverse[k] = v] *)
Definition alias_setitem (k v : string) : Py unit :=
  λ σ, (Ok tt, World (hpo_network σ) (<[k := v]> (name_to_id_and_reverse σ)) (locals σ)).

Definition alias_dict : Py (gmap string string) :=
  λ σ, (Ok (name_to_id_and_reverse σ), σ).

(** ** networkx *)

Definition preds (G : DiGraph) (n : string) : list string :=
  (filter (λ e, e.2 = n) (edges G)).*1.

Definition succs (G : DiGraph) (n : string) : list string :=
  (filter (λ e, e.1 = n) (edges G)).*2.

(** Breadth-first closure of [seen] under [next]: every round adds the
    neighbours of all nodes seen so far. *)
Fixpoint bfs (next : string → list string) (fuel : nat) (seen : list string)
    : list string :=
  match fuel with
  | O => seen
  | S fuel' => bfs next fuel' (list_union seen (seen ≫= next))
  end.

(** [nx.descendants(G, source)]: the nodes reachable from [source], without
    [source] itself, as a set ([remove_dups] keeps one occurrence of each);
    [NetworkXError] when [source] is not a node. *)
Definition nx_descendants (G : DiGraph) (source : string) : result (list string) :=
  if bool_decide (source ∈ node_ids G)
  then Ok (remove_dups
             (list_difference (bfs (succs G) (length (edges G)) [source]) [source]))
  else Raise NetworkXError.

(** [nx.ancestors(G, source)]: the nodes that reach [source], without
    [source] itself. *)
Definition nx_ancestors (G : DiGraph) (source : string) : result (list string) :=
  if bool_decide (source ∈ node_ids G)
  then Ok (remove_dups
             (list_difference (bfs (preds G) (length (edges G)) [source]) [source]))
  else Raise NetworkXError.

(** [nx.set_node_attributes(G, v, "present_in_patient")] *)
Definition set_present (v : nat) (d : node_data) : node_data :=
  NodeData (name d) (synonyms d) (alt_id d) (Some v).

Definition set_node_attributes (v : nat) (G : DiGraph) : DiGraph :=
  Graph (prod_map id (set_present v) <$> nodes G) (edges G).

(** [G.nodes[n]['present_in_patient'] += 1] *)
Definition incr_node (n : string) (G : DiGraph) : DiGraph :=
  Graph ((λ nd, if bool_decide (nd.1 = n)
                then (nd.1, NodeData (name nd.2) (synonyms nd.2) (alt_id nd.2)
                                     (S <$> present_in_patient nd.2))
                else nd) <$> nodes G)
        (edges G).

Definition incr_present (r : ref) (n : string) : Py unit :=
  g ← deref r;
  match list_find (λ nd, nd.1 = n) (nodes g) with
  | Some (_, (_, d)) =>
      match present_in_patient d with
      | Some _ => mutate r (incr_node n)
      | None => raise KeyError
      end
  | None => raise KeyError
  end.

(** [G.remove_nodes_from(ns)]: the nodes go, and the edges at them. *)
Definition remove_nodes_from (ns : list string) (G : DiGraph) : DiGraph :=
  Graph (filter (λ nd, nd.1 ∉ ns) (nodes G))
        (filter (λ e, (e.1 ∉ ns) ∧ (e.2 ∉ ns)) (edges G)).

(** [nx.relabel_nodes(G, mapping)] (a copy): the new node dictionary gets
    the keys [mapping.get(n, n)] in the order of [G]; where two nodes get
    one label, the attributes of the later one stay. *)
Definition relabel (mapping : gmap string string) (n : string) : string :=
  default n (mapping !! n).

Fixpoint dict_from_items {V} (items : list (string * V)) (acc : list (string * V))
    : list (string * V) :=
  match items with
  | [] => acc
  | (k, v) :: items' =>
      dict_from_items items'
        (if bool_decide (k ∈ acc.*1)
         then (λ kv, if bool_decide (kv.1 = k) then (k, v) else kv) <$> acc
         else acc ++ [(k, v)])
  end.

Definition relabel_nodes (mapping : gmap string string) (G : DiGraph) : DiGraph :=
  Graph (dict_from_items (prod_map (relabel mapping) id <$> nodes G) [])
        (remove_dups (prod_map (relabel mapping) (relabel mapping) <$> edges G)).

(** ** [SimScorer.get_graph] *)

Definition has_alt_id (hpo : string) (d : node_data) : bool :=
  match alt_id d with
  | Some alts => bool_decide (hpo ∈ alts)
  | None => false
  end.

(** The scan of lines 67-71: the first node, in the order of the node
    dictionary, whose [alt_id] list holds [hpo]. *)
Definition alt_id_scan (g : DiGraph) (hpo : string) : string :=
  match find (λ graph_node, has_alt_id hpo graph_node.2) (nodes g) with
  | Some graph_node => graph_node.1
  | None => hpo
  end.

(** Lines 81-83: the nodes whose counter is 0. *)
Fixpoint zero_count_nodes (nds : list (string * node_data)) : result (list string) :=
  match nds with
  | [] => Ok []
  | node :: rest =>
      match present_in_patient node.2 with
      | None => Raise KeyError
      | Some c =>
          match zero_count_nodes rest with
          | Ok nodes_to_del =>
              Ok (if bool_decide (c = 0%nat) then node.1 :: nodes_to_del else nodes_to_del)
          | Raise e => Raise e
          end
      end
  end.

(** Lines 85-89. *)
Definition id_to_name_of (g : DiGraph) : gmap string string :=
  foldl (λ m node,
           match alt_id node.2 with
           | Some alts => foldl (λ m alt, <[alt := name node.2]> m) m alts
           | None => m
           end)
        (foldl (λ m node, <[node.1 := name node.2]> m) ∅ (nodes g))
        (nodes g).

Definition get_graph (hpo_terms : list string) (hpo_id_as_label : bool) : Py ref :=
  local_copy_hpo_network ← deepcopy SelfNetwork;
  mutate local_copy_hpo_network (set_node_attributes 0);;
  for_each hpo_terms (λ hpo,
    g ← deref local_copy_hpo_network;
    let hpo := if bool_decide (hpo ∈ node_ids g) then hpo else alt_id_scan g hpo in
    if bool_decide (hpo ∈ node_ids g) then
      ancestors ← lift (nx_ancestors g hpo);
      let parent_nodes := ancestors ++ [hpo] in
      for_each parent_nodes (λ hpo_, incr_present local_copy_hpo_network hpo_)
    else py_ret tt);;
  g ← deref local_copy_hpo_network;
  nodes_to_del ← lift (zero_count_nodes (nodes g));
  mutate local_copy_hpo_network (remove_nodes_from nodes_to_del);;
  g ← deref local_copy_hpo_network;
  let id_to_name := id_to_name_of g in
  if hpo_id_as_label then py_ret local_copy_hpo_network
  else alloc (relabel_nodes id_to_name g).

(** ** [SimScorer._init_calc_similarity]: the alias index *)

(** Lines 127-137, over the graph [obonet.read_obo] returns.  The keys of
    [temp_dict] are node identifiers, one per name, so the order in which the
    items of [name_to_id] are visited does not show. *)
Definition build_alias_index (full_hpo_graph : DiGraph) : gmap string string :=
  let name_to_id : gmap string string :=
    foldl (λ m node, <[name node.2 := node.1]> m) ∅ (nodes full_hpo_graph) in
  let temp_dict : gmap string string :=
    foldl (λ m kv, <[kv.2 := kv.1]> m) ∅ (map_to_list name_to_id) in
  let name_to_id_and_reverse := temp_dict ∪ name_to_id in
  foldl (λ m node,
           let m := match synonyms node.2 with
                    | Some syns => foldl (λ m syn, <[syn := node.1]> m) m syns
                    | None => m
                    end in
           match alt_id node.2 with
           | Some alts => foldl (λ m alt, <[alt := name node.2]> m) m alts
           | None => m
           end)
        name_to_id_and_reverse (nodes full_hpo_graph).

(** [SimScorer.__init__]: [hpo_network] is the (reversed) graph phenopy
    builds, [full_hpo_graph] the one obonet reads. *)
Definition init (hpo_network full_hpo_graph : DiGraph) : world :=
  World hpo_network (build_alias_index full_hpo_graph) [].

(** ** [SimScorer.filter_hpo_df] *)

Definition parents_to_exclude : list string :=
  ["HP:0000708"; "HP:0000271"; "HP:0011297"; "HP:0031703"; "HP:0012372"].

(** A row of a table of individuals: the cells before the last one, and the
    term list in the last cell (the column [hpo_all] of a data frame). *)
Record row := Row {
  features : list Qc;
  hpo_all : list string
}.

(** The shapes [filter_hpo_df] tells apart with [isinstance]. *)
Inductive collection :=
  | PyList (l : list string)
  | NdArray (rows : list row)
  | DataFrame (rows : list row)
  | Series (r : row).

(** [list(set(l))]: the elements of [l], once each, in an order that is
    the interpreter's. *)
Definition list_set (l : list string) : list string := remove_dups l.

Definition not_excluded (exclude : list string) (L : list string) : list string :=
  filter (λ i, i ∉ exclude) L.

Definition filter_row (exclude : list string) (r : row) : row :=
  Row (features r) (not_excluded exclude (hpo_all r)).

(** Lines 281-284. *)
Fixpoint build_exclude (g : DiGraph) (roots : list string) (exclude : list string)
    : result (list string) :=
  match roots with
  | [] => Ok exclude
  | hpo :: roots' =>
      match nx_descendants g hpo with
      | Ok children => build_exclude g roots' (exclude ++ children ++ [hpo])
      | Raise e => Raise e
      end
  end.

Definition filter_hpo_df (df : collection) : Py collection :=
  temp_df ← deref SelfNetwork;
  for_each (nodes temp_df) (λ node,
    match alt_id node.2 with
    | Some alts => for_each alts (λ alt, alias_setitem alt (name node.2))
    | None => py_ret tt
    end);;
  g ← deref SelfNetwork;
  exclude ← lift (build_exclude g parents_to_exclude []);
  match df with
  | PyList l => py_ret (PyList (list_set (not_excluded exclude l)))
  | NdArray rows => py_ret (NdArray (filter_row exclude <$> rows))
  | DataFrame rows => py_ret (DataFrame (filter_row exclude <$> rows))
  | Series r => py_ret (DataFrame [filter_row exclude r])
  end.

(** ** [SimScorer.calc_similarity] *)

(** ['HP' in term] *)
Fixpoint str_contains (p s : string) : bool :=
  String.prefix p s ||
  match s with
  | EmptyString => false
  | String _ s' => str_contains p s'
  end.

(** The builtin [max] on two numbers: the first unless the second is
    greater. *)
Definition py_max (a b : Qc) : Qc := if decide (a < b)%Qc then b else a.

Definition np_sum (l : list Qc) : Qc := foldr Qcplus 0%Qc l.

(** [np.average] and [ndarray.mean]: [nan] on an empty array. *)
Definition np_average (l : list Qc) : option Qc :=
  match l with
  | [] => None
  | _ => Some (np_sum l / Q2Qc (inject_Z (Z.of_nat (length l))))%Qc
  end.

(** The comprehension of lines 164-165: the guard [term in hpo_nodes] is
    evaluated on the token as given, the expression on the tokens that
    pass. *)
Fixpoint proc_terms (hpo_nodes : list string) (alias : gmap string string)
    (terms : list string) : result (list string) :=
  match terms with
  | [] => Ok []
  | term :: terms' =>
      if bool_decide (term ∈ hpo_nodes) then
        match (if str_contains "HP" term then Ok term
               else match alias !! term with
                    | Some v => Ok v
                    | None => Raise KeyError
                    end) with
        | Ok t =>
            match proc_terms hpo_nodes alias terms' with
            | Ok l => Ok (t :: l)
            | Raise e => Raise e
            end
        | Raise e => Raise e
        end
      else proc_terms hpo_nodes alias terms'
  end.

Section Scorer.

(** [self.scorer.score_hpo_pair_hrss] of phenopy. *)
Variable score_hpo_pair_hrss : string → string → Qc.

(** Lines 169-174 and 176-181. *)
Definition best_matches_a (terms_a_proc terms_b_proc : list string) : list Qc :=
  (λ term_a,
     foldl (λ max_score term_b, py_max max_score (score_hpo_pair_hrss term_a term_b))
           0%Qc terms_b_proc) <$> terms_a_proc.

Definition best_matches_b (terms_a_proc terms_b_proc : list string) : list Qc :=
  (λ term_b,
     foldl (λ max_score term_a, py_max max_score (score_hpo_pair_hrss term_a term_b))
           0%Qc terms_a_proc) <$> terms_b_proc.

Definition calc_similarity (terms_a terms_b : list string) : Py Qc :=
  g ← deref SelfNetwork;
  alias ← alias_dict;
  let hpo_nodes := node_ids g in
  terms_a_proc ← lift (proc_terms hpo_nodes alias terms_a);
  terms_b_proc ← lift (proc_terms hpo_nodes alias terms_b);
  let max1 := best_matches_a terms_a_proc terms_b_proc in
  let max0 := best_matches_b terms_a_proc terms_b_proc in
  let average := np_average (max1 ++ max0) in
  py_ret (match average with
          | None => 0%Qc
          | Some average => average
          end).

(** ** [SimScorer.calc_full_sim_mat]

    [x] is the array of individuals whose last cell holds the list of HPO
    terms; the binarized form, which needs the [mlb] object of the caller,
    is not part of the model. *)

(** [l[i]] for [i] from [range(len(l))] *)
Definition getitem {A} (l : list A) (i : nat) : Py A :=
  match l !! i with
  | Some a => py_ret a
  | None => raise IndexError
  end.

(** [sim_mat[i, z] = v] *)
Definition setitem2 (sim_mat : list (list Qc)) (i z : nat) (v : Qc)
    : list (list Qc) :=
  match sim_mat !! i with
  | Some r => <[i := <[z := v]> r]> sim_mat
  | None => sim_mat
  end.

(** A loop that updates the local variable [acc]. *)
Fixpoint for_acc {A S} (l : list A) (acc : S) (body : S → A → Py S) : Py S :=
  match l with
  | [] => py_ret acc
  | x :: l' => acc' ← body acc x; for_acc l' acc' body
  end.

Definition flatten_hpos (c : collection) : list (list string) :=
  match c with
  | PyList _ => []
  | NdArray rows | DataFrame rows => hpo_all <$> rows
  | Series r => [hpo_all r]
  end.

Definition calc_full_sim_mat (x : list row) : Py (list (list Qc)) :=
  let n := length x in
  let sim_mat := replicate n (replicate n 1%Qc) in
  match x with
  | [] => raise IndexError
  | _ =>
      filtered ← filter_hpo_df (NdArray (Row [] <$> (hpo_all <$> x)));
      let hpos := flatten_hpos filtered in
      for_acc (seq 0 (length sim_mat)) sim_mat (λ sim_mat i,
        for_acc (seq 0 (length sim_mat)) sim_mat (λ sim_mat z,
          hpos_i ← getitem hpos i;
          hpos_z ← getitem hpos z;
          v ← calc_similarity (list_set hpos_i) (list_set hpos_z);
          py_ret (setitem2 sim_mat i z v)))
  end.

End Scorer.

(** ** [SimScorer.calc_sim_scores] *)

(** An index of numpy: an array of integers, or one integer. *)
Inductive index :=
  | IdxArray (l : list Z)
  | IdxScalar (i : Z).

(** [a[i]] for an integer [i]: a negative [i] counts from the end. *)
Definition np_getitem {A} (a : list A) (i : Z) : result A :=
  let n := Z.of_nat (length a) in
  let j := if bool_decide (i < 0)%Z then (i + n)%Z else i in
  if bool_decide (0 ≤ j < n)%Z then
    match a !! Z.to_nat j with
    | Some v => Ok v
    | None => Raise IndexError
    end
  else Raise IndexError.

Fixpoint result_map {A B} (f : A → result B) (l : list A) : result (list B) :=
  match l with
  | [] => Ok []
  | a :: l' =>
      match f a with
      | Ok b =>
          match result_map f l' with
          | Ok bs => Ok (b :: bs)
          | Raise e => Raise e
          end
      | Raise e => Raise e
      end
  end.

(** [a[idx]] for an array of integers [idx] *)
Definition np_take {A} (a : list A) (idx : list Z) : result (list A) :=
  result_map (np_getitem a) idx.

(** [m[:, idx]] *)
Definition np_take_cols (m : list (list Qc)) (idx : list Z) : result (list (list Qc)) :=
  result_map (λ r, np_take r idx) m.

(** [a[mask]] for a boolean array [mask] as long as [a] *)
Definition np_mask {A} (a : list A) (mask : list bool) : list A :=
  (filter (λ p, p.1 = true) (zip mask a)).*2.

(** [m[:, mask].mean(axis=1).reshape(-1, 1)], for [m] with [ncols] columns:
    numpy refuses a mask of another length. *)
Definition masked_row_means (ncols : nat) (m : list (list Qc)) (mask : list bool)
    : result (list (list (option Qc))) :=
  if bool_decide (length mask = ncols)
  then Ok ((λ r, [np_average (np_mask r mask)]) <$> m)
  else Raise IndexError.

(** [np.append(a, b, axis=1)] for two arrays with the same number of rows *)
Definition np_append_cols {A} (a b : list (list A)) : list (list A) :=
  zip_with app a b.

Definition calc_sim_scores (sim_mat : list (list Qc)) (train_index : list Z)
    (test_index : index) (y_train : list Z)
    : result (list (list (option Qc)) * list (list (option Qc))) :=
  let ncols := length train_index in
  let pat := (λ y, bool_decide (y = 1%Z)) <$> y_train in
  let control := (λ y, bool_decide (y = 0%Z)) <$> y_train in
  match np_take_cols sim_mat train_index with
  | Raise e => Raise e
  | Ok cols =>
      match np_take cols train_index with
      | Raise e => Raise e
      | Ok sim_mat_train =>
          match (match test_index with
                 | IdxArray idx =>
                     match np_take cols idx with
                     | Ok sim_mat_test => Ok (inl sim_mat_test)
                     | Raise e => Raise e
                     end
                 | IdxScalar i =>
                     match np_getitem cols i with
                     | Ok sim_mat_test => Ok (inr sim_mat_test)
                     | Raise e => Raise e
                     end
                 end) with
          | Raise e => Raise e
          | Ok sim_mat_test =>
              match masked_row_means ncols sim_mat_train pat,
                    masked_row_means ncols sim_mat_train control with
              | Ok sim_avg_pat, Ok sim_avg_control =>
                  match (match sim_mat_test with
                         | inl sim_mat_test =>
                             (masked_row_means ncols sim_mat_test pat,
                              masked_row_means ncols sim_mat_test control)
                         | inr sim_mat_test =>
                             (masked_row_means ncols [sim_mat_test] pat,
                              masked_row_means ncols [sim_mat_test] control)
                         end) with
                  | (Ok sim_avg_pat_test, Ok sim_avg_control_test) =>
                      Ok (np_append_cols sim_avg_pat sim_avg_control,
                          np_append_cols sim_avg_pat_test sim_avg_control_test)
                  | (Raise e, _) | (_, Raise e) => Raise e
                  end
              | Raise e, _ | _, Raise e => Raise e
              end
          end
      end
  end.

(** ** A small ontology

    A fragment of the HPO holding the five excluded roots, in the
    orientation of [self.hpo_network]: an edge goes from a term to each of
    its children. *)

Definition term (nm : string) : node_data := NodeData nm None None None.

Definition toy_network : DiGraph :=
  Graph
    [ ("HP:0000001", term "All");
      ("HP:0000118", term "Phenotypic abnormality");
      ("HP:0000708", term "Atypical behavior");
      ("HP:0000271", term "Abnormality of the face");
      ("HP:0011297", term "Abnormal digit morphology");
      ("HP:0031703", term "Abnormal ear morphology");
      ("HP:0012372", term "Abnormal eye morphology");
      ("HP:0000729", term "Autistic behavior");
      ("HP:0001250", NodeData "Seizure" (Some ["Seizures"]) (Some ["HP:0002125"]) None);
      ("HP:0001249", term "Intellectual disability") ]
    [ ("HP:0000001", "HP:0000118");
      ("HP:0000118", "HP:0000708");
      ("HP:0000118", "HP:0000271");
      ("HP:0000118", "HP:0011297");
      ("HP:0000118", "HP:0031703");
      ("HP:0000118", "HP:0012372");
      ("HP:0000708", "HP:0000729");
      ("HP:0000118", "HP:0001250");
      ("HP:0000118", "HP:0001249") ].

(** The state [__init__] leaves when obonet reads the same terms. *)
Definition toy_world : world := init toy_network toy_network.

(** A scorer in the manner of the toy example: 1 on equal terms, 1/2 on
    terms of which one is the parent of the other, 0 otherwise. *)
Definition toy_score (a b : string) : Qc :=
  if bool_decide (a = b) then 1%Qc
  else if bool_decide ((a, b) ∈ edges toy_network ∨ (b, a) ∈ edges toy_network)
       then Q2Qc (1 # 2)
       else 0%Qc.




(** A cohort of three individuals with its similarity matrix. *)
Definition toy_sim_mat : list (list Qc) :=
  [ [1%Qc; Q2Qc (1 # 2); 0%Qc];
    [Q2Qc (1 # 2); 1%Qc; Q2Qc (1 # 4)];
    [0%Qc; Q2Qc (1 # 4); 1%Qc] ].

(** * Properties *)

(** ** Reachability: what [bfs] computes *)

Section Closure.

Variable next : string → list string.
Variable U : list string.
Hypothesis next_in_U : ∀ x y, y ∈ next x → y ∈ U.

Definition step_rel (x y : string) : Prop := y ∈ next x.

Definition closed (seen : list string) : Prop :=
  ∀ x y, x ∈ seen → y ∈ next x → y ∈ seen.

Definition missing (seen : list string) : nat :=
  length (filter (λ x, x ∉ seen) U).

Lemma elem_of_round seen x :
  x ∈ list_union seen (seen ≫= next) ↔ x ∈ seen ∨ ∃ y, y ∈ seen ∧ x ∈ next y.
Proof.
  rewrite list_elem_of_union, list_elem_of_bind. split.
  - intros [?|(y & ? & ?)]; [by left|right; by exists y].
  - intros [?|(y & ? & ?)]; [by left|right; by exists y].
Qed.

Lemma bfs_incl fuel seen x : x ∈ seen → x ∈ bfs next fuel seen.
Proof.
  revert seen. induction fuel as [|fuel IH]; intros seen Hx; simpl; [done|].
  apply IH, elem_of_round. by left.
Qed.

Lemma bfs_sound fuel seen x :
  x ∈ bfs next fuel seen → ∃ s, s ∈ seen ∧ rtc step_rel s x.
Proof.
  revert seen. induction fuel as [|fuel IH]; intros seen Hx; simpl in Hx.
  - exists x. split; [done|apply rtc_refl].
  - destruct (IH _ Hx) as (s & Hs & Hr).
    apply elem_of_round in Hs as [Hs|(y & Hy & Hs)].
    + by exists s.
    + exists y. split; [done|]. by eapply rtc_l.
Qed.

Lemma closed_round seen x :
  closed seen → x ∈ list_union seen (seen ≫= next) ↔ x ∈ seen.
Proof.
  intros Hc. rewrite elem_of_round. split; [|by left].
  intros [?|(y & Hy & Hx)]; [done|]. by eapply Hc.
Qed.

Lemma closed_equiv seen seen' :
  (∀ x, x ∈ seen' ↔ x ∈ seen) → closed seen → closed seen'.
Proof.
  intros He Hc x y Hx Hy. apply He. eapply Hc; [|done]. by apply He.
Qed.

Lemma closed_bfs fuel seen x :
  closed seen → x ∈ bfs next fuel seen ↔ x ∈ seen.
Proof.
  revert seen. induction fuel as [|fuel IH]; intros seen Hc; simpl; [done|].
  rewrite IH.
  - by apply closed_round.
  - eapply closed_equiv; [|done]. intros z. by apply closed_round.
Qed.

Lemma closed_reach seen s x :
  closed seen → s ∈ seen → rtc step_rel s x → x ∈ seen.
Proof.
  intros Hc Hs Hr. induction Hr as [|a b c Hab _ IH]; [done|].
  apply IH. by eapply Hc.
Qed.

Lemma filter_length_le (P Q : string → Prop)
    `{!∀ x, Decision (P x)} `{!∀ x, Decision (Q x)} (l : list string) :
  (∀ x, P x → Q x) → length (filter P l) ≤ length (filter Q l).
Proof.
  intros HPQ. induction l as [|a l IH]; [done|].
  rewrite !filter_cons.
  destruct (decide (P a)) as [HP|HP], (decide (Q a)) as [HQ|HQ]; simpl; try lia.
  destruct HQ. by apply HPQ.
Qed.

Lemma filter_length_eq (P Q : string → Prop)
    `{!∀ x, Decision (P x)} `{!∀ x, Decision (Q x)} (l : list string) :
  (∀ x, P x → Q x) → length (filter P l) = length (filter Q l) →
  ∀ x, x ∈ l → Q x → P x.
Proof.
  intros HPQ. induction l as [|a l IH]; intros Hlen x Hx HQx.
  - by apply elem_of_nil in Hx.
  - rewrite !filter_cons in Hlen.
    pose proof (filter_length_le P Q l HPQ) as Hle.
    destruct (decide (P a)) as [HP|HP], (decide (Q a)) as [HQ|HQ];
      simpl in Hlen; try lia.
    + apply elem_of_cons in Hx as [->|Hx]; [done|]. apply IH; [lia|done..].
    + destruct HQ. by apply HPQ.
    + apply elem_of_cons in Hx as [->|Hx]; [done|]. apply IH; [lia|done..].
Qed.

Lemma missing_round_le seen :
  missing (list_union seen (seen ≫= next)) ≤ missing seen.
Proof.
  apply filter_length_le. intros x Hx Hs. apply Hx, elem_of_round. by left.
Qed.

Lemma missing_round_eq seen :
  missing (list_union seen (seen ≫= next)) = missing seen → closed seen.
Proof.
  intros Heq x y Hx Hy.
  destruct (decide (y ∈ seen)) as [|Hn]; [done|].
  assert (y ∉ list_union seen (seen ≫= next)) as Hn'.
  { eapply (filter_length_eq (λ z, z ∉ list_union seen (seen ≫= next))
                             (λ z, z ∉ seen) U); [| |by eapply next_in_U|exact Hn].
    - intros z Hz Hs. apply Hz, elem_of_round. by left.
    - exact Heq. }
  destruct Hn'. apply elem_of_round. right. by exists x.
Qed.

Lemma bfs_closed fuel seen :
  missing seen ≤ fuel → closed (bfs next fuel seen).
Proof.
  revert seen. induction fuel as [|fuel IH]; intros seen Hm; simpl.
  - intros x y Hx Hy. destruct (decide (y ∈ seen)) as [|Hn]; [done|].
    assert (y ∈ filter (λ x, x ∉ seen) U) as Hf.
    { apply list_elem_of_filter. split; [done|]. by eapply next_in_U. }
    unfold missing in Hm. destruct (filter _ U); [|simpl in Hm; lia].
    by apply elem_of_nil in Hf.
  - pose proof (missing_round_le seen) as Hle.
    destruct (decide (missing (list_union seen (seen ≫= next)) = missing seen))
      as [Heq|Hne].
    + apply missing_round_eq in Heq.
      eapply closed_equiv; [|exact Heq].
      intros z. rewrite closed_bfs; [by apply closed_round|].
      eapply closed_equiv; [|exact Heq]. intros w. by apply closed_round.
    + apply IH. lia.
Qed.

Lemma bfs_spec fuel seen x :
  length U ≤ fuel →
  x ∈ bfs next fuel seen ↔ ∃ s, s ∈ seen ∧ rtc step_rel s x.
Proof.
  intros Hf. split; [apply bfs_sound|].
  intros (s & Hs & Hr). eapply closed_reach; [|by apply bfs_incl|done].
  apply bfs_closed. unfold missing.
  etrans; [apply length_filter|done].
Qed.

End Closure.

(** [edge G u v]: the graph has the edge [u -> v]; in [self.hpo_network]
    that is the edge from a term to one of its children. *)
Definition edge (G : DiGraph) (u v : string) : Prop := (u, v) ∈ edges G.

Lemma elem_of_succs G u v : v ∈ succs G u ↔ edge G u v.
Proof.
  unfold succs, edge. rewrite list_elem_of_fmap. split.
  - intros ([a b] & -> & H). apply list_elem_of_filter in H as [H ?].
    simpl in *. by subst.
  - intros H. exists (u, v). split; [done|]. by apply list_elem_of_filter.
Qed.

Lemma elem_of_preds G u v : u ∈ preds G v ↔ edge G u v.
Proof.
  unfold preds, edge. rewrite list_elem_of_fmap. split.
  - intros ([a b] & -> & H). apply list_elem_of_filter in H as [H ?].
    simpl in *. by subst.
  - intros H. exists (u, v). split; [done|]. by apply list_elem_of_filter.
Qed.

(** [nx.descendants] returns the nodes other than [source] that a path of
    edges from [source] reaches. *)
Lemma nx_descendants_spec G source l x :
  nx_descendants G source = Ok l →
  x ∈ l ↔ x ≠ source ∧ rtc (edge G) source x.
Proof.
  unfold nx_descendants. case_bool_decide; [|done]. intros [= <-].
  rewrite elem_of_remove_dups, list_elem_of_difference, list_elem_of_singleton.
  rewrite (bfs_spec (succs G) ((edges G).*2)).
  - split.
    + intros [(s & ->%list_elem_of_singleton & Hr) Hne]. split; [done|].
      eapply rtc_subrel; [|done]. intros a b. apply elem_of_succs.
    + intros [Hne Hr]. split; [|done]. exists source. split; [by left|].
      eapply rtc_subrel; [|done]. intros a b. apply elem_of_succs.
  - intros a b Hb%elem_of_succs. apply list_elem_of_fmap. by exists (a, b).
  - by rewrite length_fmap.
Qed.

(** [nx.ancestors] returns the nodes other than [source] from which a path
    of edges reaches [source]. *)
Lemma nx_ancestors_spec G source l x :
  nx_ancestors G source = Ok l →
  x ∈ l ↔ x ≠ source ∧ rtc (edge G) x source.
Proof.
  unfold nx_ancestors. case_bool_decide; [|done]. intros [= <-].
  rewrite elem_of_remove_dups, list_elem_of_difference, list_elem_of_singleton.
  rewrite (bfs_spec (preds G) ((edges G).*1)).
  - assert (∀ a b, rtc (step_rel (preds G)) a b ↔ rtc (edge G) b a) as Hflip.
    { intros a b. split.
      - induction 1 as [|a b c Hab%elem_of_preds _ IH]; [done|].
        by eapply rtc_r.
      - induction 1 as [|a b c Hab _ IH]; [done|].
        eapply rtc_r; [done|]. by apply elem_of_preds. }
    split.
    + intros [(s & ->%list_elem_of_singleton & Hr) Hne]. split; [done|].
      by apply Hflip.
    + intros [Hne Hr]. split; [|done]. exists source. split; [by left|].
      by apply Hflip.
  - intros a b Hb%elem_of_preds. apply list_elem_of_fmap. by exists (b, a).
  - by rewrite length_fmap.
Qed.

(** ** Running the [Py] monad *)

Lemma py_bind_ok {A B} (m : Py A) (k : A → Py B) σ a σ' :
  m σ = (Ok a, σ') → py_bind m k σ = k a σ'.
Proof. unfold py_bind. by intros ->. Qed.

Lemma py_bind_raise {A B} (m : Py A) (k : A → Py B) σ e σ' :
  m σ = (Raise e, σ') → py_bind m k σ = (Raise e, σ').
Proof. unfold py_bind. by intros ->. Qed.

(** ** [filter_hpo_df] *)

(** The writes of lines 274-277, in order. *)
Definition alt_writes (nds : list (string * node_data)) : list (string * string) :=
  nds ≫= λ node,
    match alt_id node.2 with
    | Some alts => (λ alt, (alt, name node.2)) <$> alts
    | None => []
    end.

Definition apply_writes (ws : list (string * string)) (m : gmap string string)
    : gmap string string :=
  foldl (λ m kv, <[kv.1 := kv.2]> m) m ws.

Definition with_alias (σ : world) (m : gmap string string) : world :=
  World (hpo_network σ) m (locals σ).

Lemma run_setitem_loop (nm : string) alts σ :
  for_each alts (λ alt, alias_setitem alt nm) σ =
  (Ok tt, with_alias σ (apply_writes ((λ alt, (alt, nm)) <$> alts)
                                     (name_to_id_and_reverse σ))).
Proof.
  revert σ. induction alts as [|alt alts IH]; intros σ; simpl.
  - by destruct σ.
  - unfold py_bind, alias_setitem at 1. rewrite IH. by destruct σ.
Qed.

Lemma apply_writes_app ws1 ws2 m :
  apply_writes (ws1 ++ ws2) m = apply_writes ws2 (apply_writes ws1 m).
Proof. apply foldl_app. Qed.

Lemma run_alias_loop nds σ :
  for_each nds (λ node,
    match alt_id node.2 with
    | Some alts => for_each alts (λ alt, alias_setitem alt (name node.2))
    | None => py_ret tt
    end) σ =
  (Ok tt, with_alias σ (apply_writes (alt_writes nds) (name_to_id_and_reverse σ))).
Proof.
  revert σ. induction nds as [|[n d] nds IH]; intros σ.
  - by destruct σ.
  - cbn [for_each]. unfold py_bind.
    change (alt_writes ((n, d) :: nds)) with
      (match alt_id d with
       | Some alts => (λ alt, (alt, name d)) <$> alts
       | None => []
       end ++ alt_writes nds).
    rewrite apply_writes_app. simpl. destruct (alt_id d) as [alts|].
    + rewrite run_setitem_loop, IH. by destruct σ.
    + unfold py_ret. rewrite IH. by destruct σ.
Qed.

(** What one call of [filter_hpo_df] does to the state, whatever it
    returns. *)
Definition after_filter (σ : world) : world :=
  with_alias σ (apply_writes (alt_writes (nodes (hpo_network σ)))
                             (name_to_id_and_reverse σ)).

Definition filter_shape (exclude : list string) (df : collection) : collection :=
  match df with
  | PyList l => PyList (list_set (not_excluded exclude l))
  | NdArray rows => NdArray (filter_row exclude <$> rows)
  | DataFrame rows => DataFrame (filter_row exclude <$> rows)
  | Series r => DataFrame [filter_row exclude r]
  end.

Lemma run_filter_hpo_df df σ :
  filter_hpo_df df σ =
  match build_exclude (hpo_network σ) parents_to_exclude [] with
  | Ok exclude => (Ok (filter_shape exclude df), after_filter σ)
  | Raise e => (Raise e, after_filter σ)
  end.
Proof.
  unfold filter_hpo_df.
  rewrite (py_bind_ok _ _ σ (hpo_network σ) σ) by done.
  rewrite (py_bind_ok _ _ σ tt (after_filter σ)) by apply run_alias_loop.
  rewrite (py_bind_ok _ _ (after_filter σ) (hpo_network σ) (after_filter σ)) by done.
  unfold py_bind, lift.
  destruct (build_exclude _ _ _); [|done]. by destruct df.
Qed.

(** [t] is one of the excluded roots or below one. *)
Definition excluded (G : DiGraph) (t : string) : Prop :=
  ∃ r, r ∈ parents_to_exclude ∧ rtc (edge G) r t.

Lemma build_exclude_spec G roots acc ex t :
  build_exclude G roots acc = Ok ex →
  t ∈ ex ↔ t ∈ acc ∨ ∃ r, r ∈ roots ∧ rtc (edge G) r t.
Proof.
  revert acc. induction roots as [|r roots IH]; intros acc; simpl.
  - intros [= <-]. split; [by left|].
    intros [?|(r & Hr & _)]; [done|]. by apply elem_of_nil in Hr.
  - destruct (nx_descendants G r) as [children|] eqn:Hd; [|done].
    intros Hex. rewrite (IH _ Hex), !elem_of_app, list_elem_of_singleton.
    rewrite (nx_descendants_spec _ _ _ t Hd). split.
    + intros [[?|[[_ ?]| ->]]|(r' & Hr' & ?)].
      * by left.
      * right. exists r. split; [by left|done].
      * right. exists r. split; [by left|done].
      * right. exists r'. split; [by right|done].
    + intros [?|(r' & [->|Hr']%elem_of_cons & Ht)].
      * left. by left.
      * left. right. destruct (decide (t = r)) as [->|Hne]; [by right|by left].
      * right. by exists r'.
Qed.

Lemma build_exclude_ok G roots acc :
  (∀ r, r ∈ roots → r ∈ node_ids G) → ∃ ex, build_exclude G roots acc = Ok ex.
Proof.
  revert acc. induction roots as [|r roots IH]; intros acc Hin; simpl; [by eexists|].
  unfold nx_descendants. rewrite bool_decide_eq_true_2 by (apply Hin; by left).
  apply IH. intros r' Hr'. apply Hin. by right.
Qed.

(** An excluded root that is not a node of the loaded graph makes
    [nx.descendants], and so the filter, raise. *)
Lemma build_exclude_missing_root G roots acc r :
  r ∈ roots → r ∉ node_ids G → ∃ e, build_exclude G roots acc = Raise e.
Proof.
  revert acc. induction roots as [|r' roots IH]; intros acc Hr Hn; simpl.
  - by apply elem_of_nil in Hr.
  - unfold nx_descendants. case_bool_decide; [|by eexists].
    apply IH; [|done]. apply elem_of_cons in Hr as [->|]; done.
Qed.

(** The term lists a collection holds, one per individual. *)
Definition term_lists (c : collection) : list (list string) :=
  match c with
  | PyList l => [l]
  | NdArray rows | DataFrame rows => hpo_all <$> rows
  | Series r => [hpo_all r]
  end.

Definition is_py_list (c : collection) : bool :=
  match c with
  | PyList _ => true
  | _ => false
  end.

Lemma not_excluded_spec G ex L t :
  (∀ t, t ∈ ex ↔ excluded G t) →
  t ∈ not_excluded ex L ↔ t ∈ L ∧ ¬ excluded G t.
Proof.
  intros Hex. unfold not_excluded. rewrite list_elem_of_filter, Hex. tauto.
Qed.

(** The filter of lines 286-296 with the exclusion list of lines 281-284. *)
Lemma filter_shape_closure (G : DiGraph) (ex : list string) (df : collection) :
  build_exclude G parents_to_exclude [] = Ok ex →
  length (term_lists (filter_shape ex df)) = length (term_lists df) ∧
  ∀ i L, term_lists df !! i = Some L →
    ∃ L', term_lists (filter_shape ex df) !! i = Some L' ∧
          (∀ t, excluded G t → t ∉ L') ∧
          (∀ t, t ∈ L → ¬ excluded G t → t ∈ L') ∧
          (∀ t, t ∈ L' → t ∈ L) ∧
          (is_py_list df = false → sublist L' L).
Proof.
  intros Hex.
  assert (∀ t, t ∈ ex ↔ excluded G t) as Hspec.
  { intros t. rewrite (build_exclude_spec _ _ _ _ t Hex). unfold excluded.
    split; [|by right]. intros [H|?]; [by apply elem_of_nil in H|done]. }
  assert (∀ L, (∀ t, excluded G t → t ∉ not_excluded ex L) ∧
               (∀ t, t ∈ L → ¬ excluded G t → t ∈ not_excluded ex L) ∧
               (∀ t, t ∈ not_excluded ex L → t ∈ L) ∧
               sublist (not_excluded ex L) L) as Hrow.
  { intros L. split; [|split; [|split]].
    - intros t Ht Hin. by apply (not_excluded_spec _ _ _ _ Hspec) in Hin as [_ ?].
    - intros t Ht Hn. by apply (not_excluded_spec _ _ _ _ Hspec).
    - intros t Hin. by apply (not_excluded_spec _ _ _ _ Hspec) in Hin as [? _].
    - apply sublist_filter. }
  split.
  - destruct df; simpl; by rewrite ?length_fmap.
  - clear Hex. intros i L HL. destruct df as [l|rows|rows|r]; simpl in HL |- *.
    + destruct i; [|done]. injection HL as <-. eexists. split; [done|].
      destruct (Hrow l) as (H1 & H2 & H3 & _). unfold list_set.
      split; [|split; [|split]].
      * intros t Ht Hin. rewrite elem_of_remove_dups in Hin. exact (H1 t Ht Hin).
      * intros t Ht Hn. rewrite elem_of_remove_dups. by apply H2.
      * intros t Hin. rewrite elem_of_remove_dups in Hin. by apply H3.
      * done.
    + rewrite list_lookup_fmap in HL.
      destruct (rows !! i) as [r|] eqn:Hr; [|done]. injection HL as <-.
      exists (not_excluded ex (hpo_all r)). split.
      { by rewrite !list_lookup_fmap, Hr. }
      destruct (Hrow (hpo_all r)) as (? & ? & ? & ?). done.
    + rewrite list_lookup_fmap in HL.
      destruct (rows !! i) as [r|] eqn:Hr; [|done]. injection HL as <-.
      exists (not_excluded ex (hpo_all r)). split.
      { by rewrite !list_lookup_fmap, Hr. }
      destruct (Hrow (hpo_all r)) as (? & ? & ? & ?). done.
    + destruct i; [|done]. injection HL as <-. eexists. split; [done|].
      destruct (Hrow (hpo_all r)) as (? & ? & ? & ?). done.
Qed.

(** C6. Whenever [filter_hpo_df] returns, for every shape of its input, it
    returns one term list per term list of the input, holding exactly the
    terms of the input list that are neither an excluded root nor below one:
    no excluded term is returned and every other term of the input is; in
    the tabular shapes the kept terms stay in place, in their order and
    number.  It does return when the excluded roots are nodes of the loaded
    graph. *)
Theorem filter_hpo_df_closure (σ : world) (df : collection) :
  (∀ out σ',
     filter_hpo_df df σ = (Ok out, σ') →
     length (term_lists out) = length (term_lists df) ∧
     ∀ i L, term_lists df !! i = Some L →
       ∃ L', term_lists out !! i = Some L' ∧
             (∀ t, excluded (hpo_network σ) t → t ∉ L') ∧
             (∀ t, t ∈ L → ¬ excluded (hpo_network σ) t → t ∈ L') ∧
             (∀ t, t ∈ L' → t ∈ L) ∧
             (is_py_list df = false → sublist L' L)) ∧
  ((∀ r, r ∈ parents_to_exclude → r ∈ node_ids (hpo_network σ)) →
   ∃ out σ', filter_hpo_df df σ = (Ok out, σ')).
Proof.
  split.
  - intros out σ'. rewrite run_filter_hpo_df.
    destruct (build_exclude _ _ _) as [ex|] eqn:Hex; [|done].
    intros [= <- <-]. by apply filter_shape_closure.
  - intros Hroots. rewrite run_filter_hpo_df.
    destruct (build_exclude_ok (hpo_network σ) parents_to_exclude [] Hroots)
      as [ex ->].
    by eexists _, _.
Qed.

(** ** [get_graph] *)

(** The node the loop of [get_graph] works on for the token [hpo]: [hpo]
    itself when it is a node, else the first node that lists it as an
    alternate identifier, if there is one. *)
Definition resolve (G : DiGraph) (hpo : string) : option string :=
  let hpo' := if bool_decide (hpo ∈ node_ids G) then hpo else alt_id_scan G hpo in
  if bool_decide (hpo' ∈ node_ids G) then Some hpo' else None.

(** [n] is the node [hpo] resolves to, or one of its ancestors. *)
Definition covers (G : DiGraph) (hpo n : string) : bool :=
  match resolve G hpo with
  | Some r =>
      match nx_ancestors G r with
      | Ok ancestors => bool_decide (n ∈ ancestors ++ [r])
      | Raise _ => false
      end
  | None => false
  end.

(** The number of entries of [hpo_terms] that contribute [n]. *)
Definition count_terms (G : DiGraph) (hpo_terms : list string) (n : string) : nat :=
  length (filter (λ hpo, covers G hpo n = true) hpo_terms).

(** The private copy while the loop runs: the graph with a counter at every
    node. *)
Definition with_counts (G : DiGraph) (c : string → nat) : DiGraph :=
  Graph ((λ nd, (nd.1, set_present (c nd.1) nd.2)) <$> nodes G) (edges G).

Lemma with_counts_ext G c c' :
  (∀ n, n ∈ node_ids G → c n = c' n) → with_counts G c = with_counts G c'.
Proof.
  intros H. unfold with_counts. f_equal. apply list_fmap_ext.
  intros i [n d] Hi. simpl. rewrite (H n); [done|].
  apply list_elem_of_fmap. exists (n, d). split; [done|].
  by eapply list_elem_of_lookup_2.
Qed.

Lemma node_ids_with_counts G c : node_ids (with_counts G c) = node_ids G.
Proof.
  unfold node_ids, with_counts. simpl. rewrite <- list_fmap_compose.
  by apply list_fmap_ext.
Qed.

Lemma set_node_attributes_counts G :
  set_node_attributes 0 G = with_counts G (λ _, 0).
Proof.
  reflexivity.
Qed.

Lemma incr_node_counts G c n :
  incr_node n (with_counts G c) =
  with_counts G (λ m, c m + if bool_decide (m = n) then 1 else 0).
Proof.
  unfold incr_node, with_counts. simpl. f_equal.
  rewrite <- list_fmap_compose. apply list_fmap_ext.
  intros i [m d] _. simpl. case_bool_decide; simpl.
  all: unfold set_present; simpl; do 3 f_equal; lia.
Qed.

Lemma find_alt_with_counts hpo c nds :
  find (λ gn : string * node_data, has_alt_id hpo gn.2)
       ((λ nd, (nd.1, set_present (c nd.1) nd.2)) <$> nds) =
  (λ nd, (nd.1, set_present (c nd.1) nd.2)) <$>
    find (λ gn : string * node_data, has_alt_id hpo gn.2) nds.
Proof.
  induction nds as [|[n d] nds IH]; [done|]. simpl.
  change (has_alt_id hpo (set_present (c n) d)) with (has_alt_id hpo d).
  by destruct (has_alt_id hpo d).
Qed.

Lemma alt_id_scan_with_counts G c hpo :
  alt_id_scan (with_counts G c) hpo = alt_id_scan G hpo.
Proof.
  unfold alt_id_scan, with_counts. simpl. rewrite find_alt_with_counts.
  by destruct (find _ (nodes G)).
Qed.

Lemma resolve_with_counts G c hpo : resolve (with_counts G c) hpo = resolve G hpo.
Proof.
  unfold resolve. by rewrite node_ids_with_counts, alt_id_scan_with_counts.
Qed.

Lemma nx_ancestors_with_counts G c n :
  nx_ancestors (with_counts G c) n = nx_ancestors G n.
Proof. unfold nx_ancestors. by rewrite node_ids_with_counts. Qed.

Lemma resolve_is_node G hpo r : resolve G hpo = Some r → r ∈ node_ids G.
Proof.
  unfold resolve. cbv zeta.
  destruct (bool_decide ((if bool_decide (hpo ∈ node_ids G) then hpo
                          else alt_id_scan G hpo) ∈ node_ids G)) eqn:E; [|done].
  intros [= <-]. by apply bool_decide_eq_true_1 in E.
Qed.

Lemma resolve_node G hpo : hpo ∈ node_ids G → resolve G hpo = Some hpo.
Proof.
  intros H. unfold resolve. cbv zeta.
  rewrite (bool_decide_eq_true_2 _ H). by rewrite (bool_decide_eq_true_2 _ H).
Qed.

(** A token that is no node resolves to a node that lists it among its
    alternate identifiers, and to the first such node. *)
Lemma resolve_alt_id G hpo r :
  hpo ∉ node_ids G → resolve G hpo = Some r →
  ∃ d alts, (r, d) ∈ nodes G ∧ alt_id d = Some alts ∧ hpo ∈ alts.
Proof.
  intros Hn. unfold resolve. cbv zeta. rewrite (bool_decide_eq_false_2 _ Hn).
  unfold alt_id_scan.
  destruct (find _ (nodes G)) as [[n d]|] eqn:Hf; simpl.
  - case_bool_decide; [|done]. intros [= <-].
    apply find_some in Hf as [Hin Halt]. unfold has_alt_id in Halt. simpl in Halt.
    destruct (alt_id d) as [alts|] eqn:Ha; [|done].
    exists d, alts. split; [by apply list_elem_of_In|]. split; [done|].
    by apply bool_decide_eq_true_1 in Halt.
  - by rewrite bool_decide_eq_false_2.
Qed.

Lemma resolve_alt_id_found G hpo n d alts :
  hpo ∉ node_ids G → (n, d) ∈ nodes G → alt_id d = Some alts → hpo ∈ alts →
  is_Some (resolve G hpo).
Proof.
  intros Hn Hin Ha Halt. unfold resolve. cbv zeta.
  rewrite (bool_decide_eq_false_2 _ Hn). unfold alt_id_scan.
  destruct (find _ (nodes G)) as [[m e]|] eqn:Hf; simpl.
  - apply find_some in Hf as [Hm _]. rewrite bool_decide_eq_true_2; [by eexists|].
    apply list_elem_of_fmap. exists (m, e). split; [done|]. by apply list_elem_of_In.
  - apply list_elem_of_In in Hin. apply (find_none _ _ Hf) in Hin.
    unfold has_alt_id in Hin. simpl in Hin. rewrite Ha in Hin.
    by rewrite bool_decide_eq_true_2 in Hin.
Qed.

Lemma nx_ancestors_nodes G r anc x :
  wf_graph G → nx_ancestors G r = Ok anc → x ∈ anc → x ∈ node_ids G.
Proof.
  intros [_ Hwf] Ha Hx. apply (nx_ancestors_spec _ _ _ x Ha) in Hx as [Hne Hr].
  destruct Hr as [|a b c Hab _]; [done|]. by apply Hwf in Hab as [? _].
Qed.

Lemma nx_ancestors_NoDup G r anc :
  nx_ancestors G r = Ok anc → NoDup (anc ++ [r]).
Proof.
  intros Ha. apply NoDup_app. split; [|split].
  - unfold nx_ancestors in Ha. case_bool_decide; [|done]. injection Ha as <-.
    apply NoDup_remove_dups.
  - intros x Hx ->%list_elem_of_singleton.
    by apply (nx_ancestors_spec _ _ _ r Ha) in Hx as [? _].
  - apply NoDup_singleton.
Qed.


(** [covers] in terms of paths: [n] reaches the node [hpo] resolves to. *)
Lemma covers_spec G hpo n :
  covers G hpo n = true ↔ ∃ r, resolve G hpo = Some r ∧ rtc (edge G) n r.
Proof.
  unfold covers. destruct (resolve G hpo) as [r|] eqn:Hr.
  - destruct (nx_ancestors G r) as [anc|] eqn:Ha.
    + rewrite bool_decide_eq_true, elem_of_app, list_elem_of_singleton.
      rewrite (nx_ancestors_spec _ _ _ n Ha). split.
      * intros [[_ ?]| ->]; exists r; by split.
      * intros (r' & [= <-] & Hp).
        destruct (decide (n = r)) as [->|]; [by right|by left].
    + apply resolve_is_node in Hr. unfold nx_ancestors in Ha.
      by rewrite bool_decide_eq_true_2 in Ha.
  - split; [done|]. by intros (r & [=] & _).
Qed.

(** The state while [get_graph] runs: the world of the caller and, after
    its objects, the private copy. *)
Definition with_local (σ : world) (g : DiGraph) : world :=
  World (hpo_network σ) (name_to_id_and_reverse σ) (locals σ ++ [g]).

Definition local_ref (σ : world) : ref := Local (length (locals σ)).

Lemma deref_local σ g : deref (local_ref σ) (with_local σ g) = (Ok g, with_local σ g).
Proof.
  unfold deref, local_ref, with_local. simpl.
  by rewrite lookup_app_r, Nat.sub_diag by lia.
Qed.

Lemma mutate_local σ g f :
  mutate (local_ref σ) f (with_local σ g) = (Ok tt, with_local σ (f g)).
Proof.
  unfold mutate, local_ref, with_local. simpl.
  rewrite lookup_app_r, Nat.sub_diag by lia. simpl.
  rewrite insert_app_r_alt, Nat.sub_diag by lia. done.
Qed.

Lemma incr_present_local σ G c n :
  n ∈ node_ids G →
  incr_present (local_ref σ) n (with_local σ (with_counts G c)) =
  (Ok tt, with_local σ (with_counts G (λ m, c m + if bool_decide (m = n) then 1 else 0))).
Proof.
  intros Hn. unfold incr_present.
  rewrite (py_bind_ok _ _ _ _ _ (deref_local σ _)).
  destruct (list_find (λ nd, nd.1 = n) (nodes (with_counts G c)))
    as [[i [m d]]|] eqn:Hf.
  - apply list_find_Some in Hf as (Hi & _ & _).
    unfold with_counts in Hi. simpl in Hi. rewrite list_lookup_fmap in Hi.
    destruct (nodes G !! i) as [[m' d']|]; [|done]. injection Hi as <- <-.
    cbn [present_in_patient set_present]. by rewrite mutate_local, incr_node_counts.
  - apply list_find_None in Hf. rewrite <- (node_ids_with_counts G c) in Hn.
    apply list_elem_of_fmap in Hn as (nd & -> & Hnd).
    rewrite Forall_forall in Hf. by destruct (Hf nd Hnd).
Qed.

Lemma for_each_incr_local σ G ps c :
  (∀ n, n ∈ ps → n ∈ node_ids G) → NoDup ps →
  for_each ps (incr_present (local_ref σ)) (with_local σ (with_counts G c)) =
  (Ok tt, with_local σ (with_counts G (λ m, c m + if bool_decide (m ∈ ps) then 1 else 0))).
Proof.
  revert c. induction ps as [|p ps IH]; intros c Hin Hnd.
  - simpl. unfold py_ret. do 2 f_equal. apply with_counts_ext.
    intros n _. lia.
  - apply NoDup_cons in Hnd as [Hp Hnd]. cbn [for_each].
    rewrite (py_bind_ok _ _ _ _ _ (incr_present_local σ G c p (Hin p ltac:(by left)))).
    rewrite IH; [|intros; apply Hin; by right|done].
    do 2 f_equal. apply with_counts_ext. intros n _.
    destruct (decide (n = p)) as [->|Hne].
    + rewrite (bool_decide_eq_true_2 (p = p)) by done.
      rewrite (bool_decide_eq_false_2 (p ∈ ps)) by done.
      rewrite (bool_decide_eq_true_2 (p ∈ p :: ps)) by (by left). lia.
    + rewrite (bool_decide_eq_false_2 (n = p)) by done.
      destruct (decide (n ∈ ps)).
      * rewrite !bool_decide_eq_true_2; [lia|by right|done].
      * rewrite !bool_decide_eq_false_2; [lia| |done].
        by intros [?|?]%elem_of_cons.
Qed.

Lemma count_terms_cons G hpo S n :
  count_terms G (hpo :: S) n = (if covers G hpo n then 1 else 0) + count_terms G S n.
Proof.
  unfold count_terms. rewrite filter_cons.
  destruct (covers G hpo n); by case_decide.
Qed.

Lemma count_terms_pos G S n :
  count_terms G S n ≠ 0 ↔ ∃ hpo, hpo ∈ S ∧ covers G hpo n = true.
Proof.
  induction S as [|t S IH].
  - split; [done|]. intros (hpo & H & _). by apply elem_of_nil in H.
  - rewrite count_terms_cons. destruct (covers G t n) eqn:Hc.
    + split; [|lia]. intros _. exists t. split; [by left|done].
    + simpl. rewrite IH. split.
      * intros (hpo & ? & ?). exists hpo. split; [by right|done].
      * intros (hpo & [->|?]%elem_of_cons & ?); [congruence|]. by exists hpo.
Qed.

(** One round of the loop of lines 65-77 on the private copy. *)
Lemma run_visit σ G c hpo :
  wf_graph G →
  (g ← deref (local_ref σ);
   let hpo := if bool_decide (hpo ∈ node_ids g) then hpo else alt_id_scan g hpo in
   if bool_decide (hpo ∈ node_ids g) then
     ancestors ← lift (nx_ancestors g hpo);
     let parent_nodes := ancestors ++ [hpo] in
     for_each parent_nodes (λ hpo_, incr_present (local_ref σ) hpo_)
   else py_ret tt) (with_local σ (with_counts G c)) =
  (Ok tt, with_local σ (with_counts G (λ n, c n + if covers G hpo n then 1 else 0))).
Proof.
  intros Hwf. rewrite (py_bind_ok _ _ _ _ _ (deref_local σ _)). cbv zeta.
  rewrite node_ids_with_counts, alt_id_scan_with_counts.
  unfold covers, resolve. cbv zeta.
  set (hpo' := if bool_decide (hpo ∈ node_ids G) then hpo else alt_id_scan G hpo).
  destruct (bool_decide (hpo' ∈ node_ids G)) eqn:Hin.
  - apply bool_decide_eq_true_1 in Hin. rewrite nx_ancestors_with_counts.
    destruct (nx_ancestors G hpo') as [anc|] eqn:Ha.
    + unfold py_bind at 1, lift.
      apply (for_each_incr_local σ G (anc ++ [hpo']) c).
      * intros n [Hn| ->%list_elem_of_singleton]%elem_of_app; [|done].
        by eapply nx_ancestors_nodes.
      * by eapply nx_ancestors_NoDup.
    + unfold nx_ancestors in Ha. by rewrite bool_decide_eq_true_2 in Ha.
  - unfold py_ret. do 2 f_equal. apply with_counts_ext. intros; lia.
Qed.

Lemma run_visit_loop σ G S c :
  wf_graph G →
  for_each S (λ hpo,
    g ← deref (local_ref σ);
    let hpo := if bool_decide (hpo ∈ node_ids g) then hpo else alt_id_scan g hpo in
    if bool_decide (hpo ∈ node_ids g) then
      ancestors ← lift (nx_ancestors g hpo);
      let parent_nodes := ancestors ++ [hpo] in
      for_each parent_nodes (λ hpo_, incr_present (local_ref σ) hpo_)
    else py_ret tt) (with_local σ (with_counts G c)) =
  (Ok tt, with_local σ (with_counts G (λ n, c n + count_terms G S n))).
Proof.
  intros Hwf. revert c. induction S as [|hpo S IH]; intros c.
  - simpl. unfold py_ret. do 2 f_equal. apply with_counts_ext.
    intros. unfold count_terms. simpl. lia.
  - cbn [for_each]. rewrite (py_bind_ok _ _ _ _ _ (run_visit σ G c hpo Hwf)).
    rewrite IH. do 2 f_equal. apply with_counts_ext. intros n _.
    rewrite count_terms_cons. lia.
Qed.

Lemma zero_count_nodes_counts c nds :
  zero_count_nodes ((λ nd, (nd.1, set_present (c nd.1) nd.2)) <$> nds) =
  Ok (filter (λ n, c n = 0) nds.*1).
Proof.
  induction nds as [|[n d] nds IH]; [done|].
  cbn [fmap list_fmap zero_count_nodes fst snd present_in_patient set_present].
  change (list_fmap _ _ ?f nds) with (f <$> nds). rewrite IH.
  change (list_fmap _ _ ?f nds) with (f <$> nds). rewrite filter_cons.
  by destruct (decide (c n = 0)); [rewrite bool_decide_eq_true_2
                                  |rewrite bool_decide_eq_false_2].
Qed.

(** The graph [get_graph] is left with after line 84. *)
Definition retained (G : DiGraph) (hpo_terms : list string) : DiGraph :=
  remove_nodes_from (filter (λ n, count_terms G hpo_terms n = 0) (node_ids G))
                    (with_counts G (count_terms G hpo_terms)).

Lemma run_get_graph σ hpo_terms hpo_id_as_label :
  wf_graph (hpo_network σ) →
  get_graph hpo_terms hpo_id_as_label σ =
  let g := retained (hpo_network σ) hpo_terms in
  if hpo_id_as_label then (Ok (local_ref σ), with_local σ g)
  else (Ok (local_ref (with_local σ g)),
        with_local (with_local σ g) (relabel_nodes (id_to_name_of g) g)).
Proof.
  intros Hwf. unfold get_graph.
  assert (deepcopy SelfNetwork σ = (Ok (local_ref σ), with_local σ (hpo_network σ)))
    as Hcopy by done.
  rewrite (py_bind_ok _ _ _ _ _ Hcopy).
  rewrite (py_bind_ok _ _ _ _ _ (mutate_local σ _ _)).
  rewrite set_node_attributes_counts.
  rewrite (py_bind_ok _ _ _ _ _ (run_visit_loop σ _ hpo_terms _ Hwf)).
  rewrite (py_bind_ok _ _ _ _ _ (deref_local σ _)).
  rewrite (with_counts_ext _ (λ n, 0 + count_terms (hpo_network σ) hpo_terms n)
                           (count_terms (hpo_network σ) hpo_terms)) by done.
  change (nodes (with_counts ?G ?c))
    with ((λ nd, (nd.1, set_present (c nd.1) nd.2)) <$> nodes G).
  rewrite zero_count_nodes_counts.
  unfold py_bind at 1, lift.
  rewrite (py_bind_ok _ _ _ _ _ (mutate_local σ _ _)).
  rewrite (py_bind_ok _ _ _ _ _ (deref_local σ _)).
  cbv zeta. fold (node_ids (hpo_network σ)).
  fold (retained (hpo_network σ) hpo_terms).
  destruct hpo_id_as_label; [done|].
  unfold alloc, local_ref, with_local. simpl. by rewrite length_app.
Qed.


Lemma nodes_retained G S n d :
  (n, d) ∈ nodes (retained G S) ↔
  count_terms G S n ≠ 0 ∧
  ∃ d0, (n, d0) ∈ nodes G ∧ d = set_present (count_terms G S n) d0.
Proof.
  unfold retained, remove_nodes_from, with_counts. cbn [nodes].
  rewrite list_elem_of_filter, list_elem_of_fmap. cbn [fst]. split.
  - intros [Hz ([n0 d0] & [= -> ->] & Hin)]. split.
    + intros H0. apply Hz, list_elem_of_filter. split; [done|].
      apply list_elem_of_fmap. by exists (n0, d0).
    + by exists d0.
  - intros [Hz (d0 & Hin & ->)]. split.
    + by intros [? _]%list_elem_of_filter.
    + by exists (n, d0).
Qed.



(** The toy ontology is a well-formed graph. *)
Lemma toy_network_wf : wf_graph toy_network.
Proof.
  split.
  - apply (bool_decide_unpack _). by vm_compute.
  - intros u v Huv.
    assert (Forall (λ e, e.1 ∈ node_ids toy_network ∧ e.2 ∈ node_ids toy_network)
                   (edges toy_network)) as Hall.
    { apply (bool_decide_unpack _). by vm_compute. }
    rewrite Forall_forall in Hall. exact (Hall _ Huv).
Qed.



(** ** [calc_similarity] *)

Section Similarity.

Variable score : string → string → Qc.

(** The value of lines 167-184 on the processed lists. *)
Definition best_match_average (terms_a_proc terms_b_proc : list string) : Qc :=
  match np_average (best_matches_a score terms_a_proc terms_b_proc ++
                    best_matches_b score terms_a_proc terms_b_proc) with
  | None => 0%Qc
  | Some average => average
  end.

Lemma run_calc_similarity terms_a terms_b σ :
  calc_similarity score terms_a terms_b σ =
  match proc_terms (node_ids (hpo_network σ)) (name_to_id_and_reverse σ) terms_a,
        proc_terms (node_ids (hpo_network σ)) (name_to_id_and_reverse σ) terms_b with
  | Ok a, Ok b => (Ok (best_match_average a b), σ)
  | Raise e, _ => (Raise e, σ)
  | Ok _, Raise e => (Raise e, σ)
  end.
Proof.
  unfold calc_similarity, py_bind, deref, alias_dict, lift, py_ret. simpl.
  destruct (proc_terms _ _ terms_a); [|done].
  by destruct (proc_terms _ _ terms_b).
Qed.

(** The only exception of the two comprehensions is the [KeyError] of the
    alias index. *)
Lemma proc_terms_raise ids alias terms e :
  proc_terms ids alias terms = Raise e → e = KeyError.
Proof.
  induction terms as [|t terms IH]; [done|]. simpl.
  case_bool_decide; [|done].
  destruct (str_contains "HP" t).
  - destruct (proc_terms ids alias terms); [done|]. intros [= <-]. by apply IH.
  - destruct (alias !! t); [|by intros [= <-]].
    destruct (proc_terms ids alias terms); [done|]. intros [= <-]. by apply IH.
Qed.

(** A token that is not itself a node identifier is dropped, whatever the
    alias index holds for it. *)
Lemma proc_terms_drop ids alias t terms :
  t ∉ ids → proc_terms ids alias (t :: terms) = proc_terms ids alias terms.
Proof. intros H. simpl. by rewrite bool_decide_eq_false_2. Qed.

Lemma proc_terms_absent ids alias terms :
  (∀ t, t ∈ terms → t ∉ ids) → proc_terms ids alias terms = Ok [].
Proof.
  induction terms as [|t terms IH]; intros H; [done|].
  rewrite proc_terms_drop by (apply H; by left).
  apply IH. intros t' Ht'. apply H. by right.
Qed.


Lemma np_average_zeros (l : list Qc) :
  (∀ x, x ∈ l → x = 0%Qc) → default 0%Qc (np_average l) = 0%Qc.
Proof.
  intros H. destruct l as [|x l]; [done|].
  unfold np_average. cbn [default].
  assert (np_sum (x :: l) = 0%Qc) as ->.
  { revert H. generalize (x :: l). clear. intros l H.
    induction l as [|y l IH]; [done|]. unfold np_sum in *. cbn [foldr].
    rewrite (H y) by (by left). rewrite IH; [apply Qcplus_0_l|].
    intros z Hz. apply H. by right. }
  unfold Qcdiv. apply Qcmult_0_l.
Qed.

Lemma best_match_average_default a b :
  best_match_average a b =
  default 0%Qc (np_average (best_matches_a score a b ++ best_matches_b score a b)).
Proof. unfold best_match_average. by destruct (np_average _). Qed.

Lemma best_match_average_nil_l b : best_match_average [] b = 0%Qc.
Proof.
  rewrite best_match_average_default. apply np_average_zeros.
  unfold best_matches_a, best_matches_b. simpl.
  by intros x (t & -> & _)%list_elem_of_fmap.
Qed.

Lemma best_match_average_nil_r a : best_match_average a [] = 0%Qc.
Proof.
  rewrite best_match_average_default. apply np_average_zeros.
  unfold best_matches_a, best_matches_b. simpl. rewrite app_nil_r.
  by intros x (t & -> & _)%list_elem_of_fmap.
Qed.

(** C3. When the two comprehensions of lines 164-165 give lists of which
    one or both are empty, [calc_similarity] returns 0 and raises nothing;
    that is so, in particular, when no token of either list is a node of
    the loaded graph. *)
Theorem calc_similarity_empty (σ : world) (terms_a terms_b : list string) :
  (∀ a b,
     proc_terms (node_ids (hpo_network σ)) (name_to_id_and_reverse σ) terms_a = Ok a →
     proc_terms (node_ids (hpo_network σ)) (name_to_id_and_reverse σ) terms_b = Ok b →
     a = [] ∨ b = [] →
     calc_similarity score terms_a terms_b σ = (Ok 0%Qc, σ)) ∧
  ((∀ t, t ∈ terms_a ++ terms_b → t ∉ node_ids (hpo_network σ)) →
   calc_similarity score terms_a terms_b σ = (Ok 0%Qc, σ)).
Proof.
  assert (∀ a b,
    proc_terms (node_ids (hpo_network σ)) (name_to_id_and_reverse σ) terms_a = Ok a →
    proc_terms (node_ids (hpo_network σ)) (name_to_id_and_reverse σ) terms_b = Ok b →
    a = [] ∨ b = [] →
    calc_similarity score terms_a terms_b σ = (Ok 0%Qc, σ)) as Hmain.
  { intros a b Ha Hb Hab. rewrite run_calc_similarity, Ha, Hb.
    destruct Hab as [-> | ->].
    - by rewrite best_match_average_nil_l.
    - by rewrite best_match_average_nil_r. }
  split; [exact Hmain|].
  intros Habs. apply (Hmain [] []); [| |by left].
  - apply proc_terms_absent. intros t Ht. apply Habs, elem_of_app. by left.
  - apply proc_terms_absent. intros t Ht. apply Habs, elem_of_app. by right.
Qed.

End Similarity.

(** ** Order and duplicates in [calc_similarity] *)

Lemma py_max_ub_l a b : (a ≤ py_max a b)%Qc.
Proof.
  unfold py_max. case_decide; [by apply Qclt_le_weak|apply Qcle_refl].
Qed.

Lemma py_max_ub_r a b : (b ≤ py_max a b)%Qc.
Proof.
  unfold py_max. case_decide; [apply Qcle_refl|by apply Qcnot_lt_le].
Qed.

Lemma py_max_lub a b c : (a ≤ c)%Qc → (b ≤ c)%Qc → (py_max a b ≤ c)%Qc.
Proof. unfold py_max. by case_decide. Qed.







Section Symmetry.

Variable score : string → string → Qc.








End Symmetry.

(** ** The engine on the toy ontology *)

(** Equality of two results the model computes. *)
Ltac by_evaluation :=
  lazymatch goal with
  | |- ?x ≠ ?y =>
      let H := fresh in
      intros H; vm_compute in H; discriminate H
  | |- ?lhs = (Ok ?q, ?σ) =>
      rewrite (surjective_pairing lhs); apply (f_equal2 pair);
      [vm_compute; f_equal; apply Qc_is_canon; reflexivity|by vm_compute]
  | |- _ => by vm_compute
  end.






Lemma calc_similarity_empty_witness :
  proc_terms (node_ids (hpo_network toy_world)) (name_to_id_and_reverse toy_world)
             ["Seizure"; "HP:9999999"] = Ok [] ∧
  proc_terms (node_ids (hpo_network toy_world)) (name_to_id_and_reverse toy_world)
             ["HP:0001250"] = Ok ["HP:0001250"] ∧
  calc_similarity toy_score ["Seizure"; "HP:9999999"] ["HP:0001250"] toy_world =
    (Ok 0%Qc, toy_world).
Proof.
  assert (proc_terms (node_ids (hpo_network toy_world))
            (name_to_id_and_reverse toy_world) ["Seizure"; "HP:9999999"] = Ok [])
    as Ha by (by vm_compute).
  assert (proc_terms (node_ids (hpo_network toy_world))
            (name_to_id_and_reverse toy_world) ["HP:0001250"] = Ok ["HP:0001250"])
    as Hb by (by vm_compute).
  split; [exact Ha|]. split; [exact Hb|].
  destruct (calc_similarity_empty toy_score toy_world
              ["Seizure"; "HP:9999999"] ["HP:0001250"]) as [Hmain _].
  apply (Hmain [] ["HP:0001250"] Ha Hb). by left.
Defined.

(** C4 on the code: the alias index maps the display name ["Seizure"] to a
    node of the graph, and still the token is dropped before it is looked
    up, so that its similarity to the term it names is 0, not the 1 of the
    term with itself. *)
Theorem calc_similarity_drops_display_name :
  name_to_id_and_reverse toy_world !! "Seizure" = Some "HP:0001250" ∧
  "HP:0001250" ∈ node_ids (hpo_network toy_world) ∧
  proc_terms (node_ids (hpo_network toy_world)) (name_to_id_and_reverse toy_world)
             ["Seizure"] = Ok [] ∧
  calc_similarity toy_score ["Seizure"] ["HP:0001250"] toy_world = (Ok 0%Qc, toy_world) ∧
  calc_similarity toy_score ["HP:0001250"] ["HP:0001250"] toy_world = (Ok 1%Qc, toy_world).
Proof.
  split; [by vm_compute|]. split; [apply (bool_decide_unpack _); by vm_compute|].
  split; [by vm_compute|]. split; by_evaluation.
Qed.

(** ** [calc_full_sim_mat] *)

Lemma result_map_length {A B} (f : A → result B) l bs :
  result_map f l = Ok bs → length bs = length l.
Proof.
  revert bs. induction l as [|a l IH]; intros bs; simpl.
  - by intros [= <-].
  - destruct (f a); [|done]. destruct (result_map f l); [|done].
    intros [= <-]. simpl. f_equal. by apply IH.
Qed.

Lemma result_map_lookup {A B} (f : A → result B) l bs i a :
  result_map f l = Ok bs → l !! i = Some a →
  ∃ b, bs !! i = Some b ∧ f a = Ok b.
Proof.
  revert bs i. induction l as [|a' l IH]; intros bs i; simpl; [done|].
  destruct (f a') as [b'|] eqn:Hf; [|done].
  destruct (result_map f l) as [bs'|]; [|done]. intros [= <-].
  destruct i as [|i]; simpl.
  - intros [= <-]. by exists b'.
  - by apply IH.
Qed.


Section Matrix.

Variable score : string → string → Qc.

Lemma calc_similarity_state terms_a terms_b σ :
  (calc_similarity score terms_a terms_b σ).2 = σ.
Proof.
  rewrite run_calc_similarity.
  destruct (proc_terms _ _ terms_a); [|done]. by destruct (proc_terms _ _ terms_b).
Qed.

(** What the body of the two loops of lines 210-212 computes for the cell
    [(i, z)]. *)
Definition cell (hpos : list (list string)) (σ : world) (i z : nat) : result Qc :=
  match hpos !! i, hpos !! z with
  | Some hpos_i, Some hpos_z =>
      (calc_similarity score (list_set hpos_i) (list_set hpos_z) σ).1
  | _, _ => Raise IndexError
  end.

Lemma run_cell hpos σ sim_mat i z :
  (hpos_i ← getitem hpos i;
   hpos_z ← getitem hpos z;
   v ← calc_similarity score (list_set hpos_i) (list_set hpos_z);
   py_ret (setitem2 sim_mat i z v)) σ =
  match cell hpos σ i z with
  | Ok v => (Ok (setitem2 sim_mat i z v), σ)
  | Raise e => (Raise e, σ)
  end.
Proof.
  unfold cell, getitem, py_bind.
  destruct (hpos !! i) as [hi|]; [|done]. simpl.
  destruct (hpos !! z) as [hz|]; [|done]. simpl.
  pose proof (calc_similarity_state (list_set hi) (list_set hz) σ) as Hst.
  destruct (calc_similarity score (list_set hi) (list_set hz) σ) as [[v|e] σ'];
    simpl in *; by subst.
Qed.

Lemma run_row_loop hpos σ i m k sim_mat r :
  sim_mat !! i = Some r → k + m = length r →
  for_acc (seq k m) sim_mat (λ sim_mat z,
    hpos_i ← getitem hpos i;
    hpos_z ← getitem hpos z;
    v ← calc_similarity score (list_set hpos_i) (list_set hpos_z);
    py_ret (setitem2 sim_mat i z v)) σ =
  match result_map (cell hpos σ i) (seq k m) with
  | Ok vs => (Ok (<[i := take k r ++ vs]> sim_mat), σ)
  | Raise e => (Raise e, σ)
  end.
Proof.
  revert k sim_mat r. induction m as [|m IH]; intros k sim_mat r Hr Hlen.
  - simpl. unfold py_ret. do 2 f_equal. rewrite app_nil_r.
    rewrite Nat.add_0_r in Hlen. subst k. rewrite firstn_all.
    symmetry. by apply list_insert_id.
  - cbn [seq for_acc result_map]. unfold py_bind at 1. rewrite run_cell.
    destruct (cell hpos σ i k) as [v|e]; [|done].
    unfold setitem2. rewrite Hr.
    rewrite (IH (S k) _ (<[k := v]> r)).
    + destruct (result_map (cell hpos σ i) (seq (S k) m)) as [vs|]; [|done].
      do 2 f_equal. rewrite list_insert_insert_eq. f_equal.
      rewrite (take_S_r _ _ v) by (apply list_lookup_insert_eq; lia).
      rewrite take_insert_ge by lia. by rewrite <- app_assoc.
    + apply list_lookup_insert_eq. by eapply lookup_lt_Some.
    + rewrite length_insert. lia.
Qed.

Lemma run_matrix_loop hpos σ n m k sim_mat :
  length sim_mat = n → (∀ r, r ∈ sim_mat → length r = n) → k + m = n →
  for_acc (seq k m) sim_mat (λ sim_mat i,
    for_acc (seq 0 (length sim_mat)) sim_mat (λ sim_mat z,
      hpos_i ← getitem hpos i;
      hpos_z ← getitem hpos z;
      v ← calc_similarity score (list_set hpos_i) (list_set hpos_z);
      py_ret (setitem2 sim_mat i z v))) σ =
  match result_map (λ i, result_map (cell hpos σ i) (seq 0 n)) (seq k m) with
  | Ok rows => (Ok (take k sim_mat ++ rows), σ)
  | Raise e => (Raise e, σ)
  end.
Proof.
  revert k sim_mat. induction m as [|m IH]; intros k sim_mat Hlen Hrows Hk.
  - simpl. unfold py_ret. do 2 f_equal. rewrite app_nil_r.
    rewrite Nat.add_0_r in Hk. subst. by rewrite firstn_all.
  - cbn [seq for_acc result_map]. unfold py_bind at 1.
    destruct (lookup_lt_is_Some_2 sim_mat k) as [r Hr]; [lia|].
    assert (length r = n) as Hrn.
    { apply Hrows. by eapply list_elem_of_lookup_2. }
    rewrite Hlen, (run_row_loop hpos σ k n 0 sim_mat r Hr) by lia.
    destruct (result_map (cell hpos σ k) (seq 0 n)) as [vs|e] eqn:Hvs; [|done].
    simpl. rewrite (IH (S k)).
    + destruct (result_map _ (seq (S k) m)) as [rows|]; [|done].
      do 2 f_equal.
      rewrite (take_S_r _ _ vs) by (apply list_lookup_insert_eq; lia).
      rewrite take_insert_ge by lia. by rewrite <- app_assoc.
    + by rewrite length_insert.
    + intros r' Hr'. apply list_elem_of_lookup in Hr' as [j Hj].
      destruct (decide (j = k)) as [->|Hne].
      * rewrite list_lookup_insert_eq in Hj by lia. injection Hj as <-.
        apply result_map_length in Hvs. by rewrite Hvs, length_seq.
      * rewrite list_lookup_insert_ne in Hj by done.
        apply Hrows. by eapply list_elem_of_lookup_2.
    + lia.
Qed.

(** The term lists of the individuals after [filter_hpo_df]. *)
Definition filtered_hpos (exclude : list string) (x : list row) : list (list string) :=
  (λ r, not_excluded exclude (hpo_all r)) <$> x.

Lemma run_calc_full_sim_mat x σ :
  x ≠ [] →
  calc_full_sim_mat score x σ =
  match build_exclude (hpo_network σ) parents_to_exclude [] with
  | Ok exclude =>
      match result_map
              (λ i, result_map (cell (filtered_hpos exclude x) (after_filter σ) i)
                               (seq 0 (length x)))
              (seq 0 (length x)) with
      | Ok sim_mat => (Ok sim_mat, after_filter σ)
      | Raise e => (Raise e, after_filter σ)
      end
  | Raise e => (Raise e, after_filter σ)
  end.
Proof.
  intros Hx. unfold calc_full_sim_mat. destruct x as [|r0 x']; [done|].
  set (x := r0 :: x') in *. cbv zeta.
  unfold py_bind at 1. rewrite run_filter_hpo_df.
  destruct (build_exclude _ _ _) as [ex|]; [|done].
  cbn [filter_shape flatten_hpos]. rewrite length_replicate.
  assert (hpo_all <$> (filter_row ex <$> (Row [] <$> (hpo_all <$> x))) =
          filtered_hpos ex x) as ->.
  { unfold filtered_hpos. rewrite <- !list_fmap_compose. by apply list_fmap_ext. }
  rewrite (run_matrix_loop _ _ (length x) (length x) 0).
  - by destruct (result_map _ _).
  - by rewrite length_replicate.
  - intros r [-> _]%elem_of_replicate. by rewrite length_replicate.
  - done.
Qed.

End Matrix.



Definition roots_loaded (G : DiGraph) : Prop :=
  ∀ r, r ∈ parents_to_exclude → r ∈ node_ids G.


Lemma toy_roots_loaded : roots_loaded (hpo_network toy_world).
Proof.
  assert (Forall (λ r, r ∈ node_ids (hpo_network toy_world)) parents_to_exclude) as H.
  { apply (bool_decide_unpack _). by vm_compute. }
  rewrite Forall_forall in H. exact H.
Qed.




(** ** [calc_sim_scores] *)

(** [i] is an index numpy accepts on an axis of length [n]. *)
Definition valid_index (n : nat) (i : Z) : Prop :=
  (- Z.of_nat n ≤ i < Z.of_nat n)%Z.

(** [sim_mat] is an [n] by [n] array. *)
Definition square (n : nat) (sim_mat : list (list Qc)) : Prop :=
  length sim_mat = n ∧ ∀ r, r ∈ sim_mat → length r = n.

(** The similarities in [sims], the row of one individual, to the training
    individuals whose label is [label], in the order of [train_index]. *)
Definition group_sims (sims : list Qc) (train_index y_train : list Z) (label : Z)
    : list Qc :=
  omap (λ ty : Z * Z,
          if bool_decide (ty.2 = label)
          then match np_getitem sims ty.1 with
               | Ok v => Some v
               | Raise _ => None
               end
          else None)
       (zip train_index y_train).

(** The two features of an individual: the mean similarity to the training
    individuals labelled 1, then to those labelled 0. *)
Definition features_of (sims : list Qc) (train_index y_train : list Z)
    : list (option Qc) :=
  [np_average (group_sims sims train_index y_train 1);
   np_average (group_sims sims train_index y_train 0)].

Definition index_list (idx : index) : list Z :=
  match idx with
  | IdxArray l => l
  | IdxScalar i => [i]
  end.

Definition getz {A} (d : A) (a : list A) (i : Z) : A :=
  match np_getitem a i with
  | Ok v => v
  | Raise _ => d
  end.

Lemma np_getitem_valid {A} (d : A) (a : list A) (i : Z) :
  valid_index (length a) i → np_getitem a i = Ok (getz d a i).
Proof.
  unfold valid_index, getz, np_getitem. intros Hv. cbv zeta.
  rewrite bool_decide_eq_true_2 by (case_bool_decide; lia).
  destruct (a !! _) eqn:Hl; [done|].
  apply lookup_ge_None in Hl. case_bool_decide; lia.
Qed.

Lemma np_getitem_fmap {A B} (f : A → B) (a : list A) (i : Z) v :
  np_getitem a i = Ok v → np_getitem (f <$> a) i = Ok (f v).
Proof.
  unfold np_getitem. cbv zeta. rewrite length_fmap, list_lookup_fmap.
  case_bool_decide; [|done]. destruct (a !! _); [|done]. by intros [= <-].
Qed.

Lemma result_map_total {A B} (f : A → result B) (g : A → B) l :
  (∀ a, a ∈ l → f a = Ok (g a)) → result_map f l = Ok (g <$> l).
Proof.
  induction l as [|a l IH]; intros H; simpl; [done|].
  rewrite (H a) by (by left). rewrite IH; [done|].
  intros a' Ha'. apply H. by right.
Qed.

Lemma np_take_valid {A} (d : A) (a : list A) (idx : list Z) :
  Forall (valid_index (length a)) idx → np_take a idx = Ok (getz d a <$> idx).
Proof.
  intros H. apply result_map_total. intros i Hi.
  apply np_getitem_valid. rewrite Forall_forall in H. by apply H.
Qed.

Lemma np_mask_group_sims (sims : list Qc) train_index y_train label :
  Forall (valid_index (length sims)) train_index →
  length y_train = length train_index →
  np_mask (getz 0%Qc sims <$> train_index)
          ((λ y, bool_decide (y = label)) <$> y_train) =
  group_sims sims train_index y_train label.
Proof.
  unfold np_mask, group_sims. revert y_train.
  induction train_index as [|t ts IH]; intros [|y ys] Hv Hlen; try done.
  apply Forall_cons in Hv as [Ht Hts]. simpl in Hlen.
  cbn [fmap list_fmap zip zip_with omap list_omap fst snd].
  change (list_fmap _ _ ?f ?l) with (f <$> l).
  rewrite filter_cons. cbn [fst].
  rewrite (np_getitem_valid 0%Qc sims t Ht).
  specialize (IH ys Hts ltac:(lia)).
  destruct (bool_decide (y = label)); simpl.
  - f_equal. exact IH.
  - exact IH.
Qed.

Lemma np_append_cols_fmap {A B} (f g : A → list B) (l : list A) :
  np_append_cols (f <$> l) (g <$> l) = (λ a, f a ++ g a) <$> l.
Proof. unfold np_append_cols. induction l; simpl; [done|]. by f_equal. Qed.

(** The rows of the table of one block: one row per index, in the order of
    the indices. *)
Lemma block_features (sim_mat : list (list Qc)) n train_index y_train idx :
  square n sim_mat → Forall (valid_index n) train_index →
  Forall (valid_index n) idx → length y_train = length train_index →
  let pat := (λ y, bool_decide (y = 1%Z)) <$> y_train in
  let control := (λ y, bool_decide (y = 0%Z)) <$> y_train in
  let block := (λ i, getz 0%Qc (getz [] sim_mat i) <$> train_index) <$> idx in
  np_append_cols ((λ r, [np_average (np_mask r pat)]) <$> block)
                 ((λ r, [np_average (np_mask r control)]) <$> block) =
  (λ i, features_of (getz [] sim_mat i) train_index y_train) <$> idx.
Proof.
  intros [Hn Hrows] Htrain Hidx Hlen. cbv zeta.
  rewrite np_append_cols_fmap, <- list_fmap_compose.
  apply list_fmap_ext. intros k i Hk. simpl. unfold features_of.
  assert (valid_index (length sim_mat) i) as Hi.
  { rewrite Hn. rewrite Forall_forall in Hidx. apply Hidx.
    by eapply list_elem_of_lookup_2. }
  assert (length (getz [] sim_mat i) = n) as Hr.
  { apply Hrows. pose proof (np_getitem_valid [] sim_mat i Hi) as Hg.
    unfold np_getitem in Hg. cbv zeta in Hg. case_bool_decide; [|done].
    destruct (sim_mat !! _) eqn:Hl; [|done]. injection Hg as <-.
    by eapply list_elem_of_lookup_2. }
  rewrite !np_mask_group_sims; by rewrite ?Hr.
Qed.



Lemma filter_hpo_df_closure_witness :
  let df := PyList ["HP:0000729"; "HP:0001250"; "HP:0000708"; "unrelated-term"] in
  (∀ r, r ∈ parents_to_exclude → r ∈ node_ids (hpo_network toy_world)) ∧
  ∃ out σ',
    filter_hpo_df df toy_world = (Ok out, σ') ∧
    length (term_lists out) = length (term_lists df) ∧
    ∀ i L,
      term_lists df !! i = Some L →
      ∃ L', term_lists out !! i = Some L' ∧
            (∀ t, excluded (hpo_network toy_world) t → t ∉ L') ∧
            (∀ t, t ∈ L → ¬ excluded (hpo_network toy_world) t → t ∈ L') ∧
            (∀ t, t ∈ L' → t ∈ L) ∧
            (is_py_list df = false → sublist L' L).
Proof.
  intros df. split; [exact toy_roots_loaded|].
  destruct (filter_hpo_df_closure toy_world df) as [Hclosure Hreturns].
  destruct (Hreturns toy_roots_loaded) as (out & σ' & Hrun).
  exists out, σ'. split; [exact Hrun|]. exact (Hclosure out σ' Hrun).
Defined.

(** The exclusion example on the toy ontology: the behavioural terms go, the
    other terms stay. *)
Example filter_hpo_df_toy :
  (filter_hpo_df (NdArray [Row [] ["HP:0000729"; "HP:0001250"; "HP:0000708";
                                   "unrelated-term"; "HP:0001250"]])
                 toy_world).1 =
  Ok (NdArray [Row [] ["HP:0001250"; "unrelated-term"; "HP:0001250"]]).
Proof. by vm_compute. Qed.

(** ** The alias index of [_init_calc_similarity] *)

(** The writes of the loop of lines 131-137, in order: for every node, its
    synonyms to its identifier, then its alternate identifiers to its
    name. *)
Definition init_writes (nds : list (string * node_data)) : list (string * string) :=
  nds ≫= λ node,
    ((λ syn, (syn, node.1)) <$> default [] (synonyms node.2)) ++
    ((λ alt, (alt, name node.2)) <$> default [] (alt_id node.2)).

Lemma foldl_insert_writes (f : string → string * string) (l : list string)
    (m : gmap string string) :
  foldl (λ m x, <[(f x).1 := (f x).2]> m) m l = apply_writes (f <$> l) m.
Proof.
  revert m. induction l as [|x l IH]; intros m; [done|]. simpl. by rewrite IH.
Qed.

Lemma init_loop_writes nds (m : gmap string string) :
  foldl (λ m node,
           let m := match synonyms node.2 with
                    | Some syns => foldl (λ m syn, <[syn := node.1]> m) m syns
                    | None => m
                    end in
           match alt_id node.2 with
           | Some alts => foldl (λ m alt, <[alt := name node.2]> m) m alts
           | None => m
           end) m nds =
  apply_writes (init_writes nds) m.
Proof.
  revert m. induction nds as [|[n d] nds IH]; intros m; [done|].
  cbn [foldl]. rewrite IH.
  change (init_writes ((n, d) :: nds)) with
    ((((λ syn, (syn, n)) <$> default [] (synonyms d)) ++
      ((λ alt, (alt, name d)) <$> default [] (alt_id d))) ++ init_writes nds).
  rewrite !apply_writes_app. f_equal. cbn [fst snd].
  destruct (synonyms d) as [syns|], (alt_id d) as [alts|]; cbn [default fmap list_fmap];
    by rewrite <- ?(foldl_insert_writes (λ syn, (syn, n))),
               <- ?(foldl_insert_writes (λ alt, (alt, name d))).
Qed.

(** The last write to a key stays; when all writes to a key agree, that is
    their value. *)
Lemma apply_writes_lookup ws (m : gmap string string) k v :
  (k, v) ∈ ws → (∀ v', (k, v') ∈ ws → v' = v) → apply_writes ws m !! k = Some v.
Proof.
  induction ws as [|[k' v'] ws IH] using rev_ind; intros Hin Huniq.
  - by apply elem_of_nil in Hin.
  - rewrite apply_writes_app. cbn [apply_writes foldl fst snd].
    destruct (decide (k' = k)) as [->|Hne].
    + rewrite lookup_insert_eq. f_equal. apply Huniq, elem_of_app. right. by left.
    + rewrite lookup_insert_ne by done. apply IH.
      * apply elem_of_app in Hin as [?|Hin]; [done|].
        apply list_elem_of_singleton in Hin. congruence.
      * intros v'' Hv''. apply Huniq, elem_of_app. by left.
Qed.


Lemma elem_of_init_writes nds k v :
  (k, v) ∈ init_writes nds ↔
  ∃ n d, (n, d) ∈ nds ∧
         ((k ∈ default [] (synonyms d) ∧ v = n) ∨
          (k ∈ default [] (alt_id d) ∧ v = name d)).
Proof.
  unfold init_writes. rewrite list_elem_of_bind. split.
  - intros ([n d] & Hin & Hnd). exists n, d. split; [done|].
    apply elem_of_app in Hin as [Hin|Hin];
      apply list_elem_of_fmap in Hin as (x & [= -> ->] & Hx); [by left|by right].
  - intros (n & d & Hnd & H). exists (n, d). split; [|done].
    apply elem_of_app. destruct H as [[Hk ->]|[Hk ->]].
    + left. apply list_elem_of_fmap. by exists k.
    + right. apply list_elem_of_fmap. by exists k.
Qed.







(** ** What the operations do to the shared state *)

(** The shared objects: the graph behind [self.hpo_network] and the alias
    index. *)
Definition shared (σ : world) : DiGraph * gmap string string :=
  (hpo_network σ, name_to_id_and_reverse σ).

(** [m] leaves the shared objects as they are, whatever it returns. *)
Definition keeps_shared {A} (m : Py A) : Prop :=
  ∀ σ, shared (m σ).2 = shared σ.




Lemma keeps_bind {A B} (m : Py A) (k : A → Py B) :
  keeps_shared m → (∀ a, keeps_shared (k a)) → keeps_shared (py_bind m k).
Proof.
  intros Hm Hk σ. unfold py_bind. specialize (Hm σ).
  destruct (m σ) as [[a|e] σ']; simpl in *; [|done]. by rewrite Hk.
Qed.


Lemma keeps_for_acc {A S} (l : list A) (acc : S) (body : S → A → Py S) :
  (∀ acc x, keeps_shared (body acc x)) → keeps_shared (for_acc l acc body).
Proof.
  intros Hb. revert acc. induction l as [|x l IH]; intros acc; [done|].
  apply keeps_bind; [apply Hb|done].
Qed.



Lemma keeps_alias_dict : keeps_shared alias_dict.
Proof. done. Qed.

Lemma keeps_getitem {A} (l : list A) i : keeps_shared (getitem l i).
Proof. unfold getitem. by destruct (l !! i). Qed.





Lemma calc_full_sim_mat_state score x σ :
  x ≠ [] → (calc_full_sim_mat score x σ).2 = after_filter σ.
Proof.
  intros Hx. rewrite run_calc_full_sim_mat by done.
  destruct (build_exclude _ _ _); [|done]. by destruct (result_map _ _).
Qed.




(** * Further properties of the engine *)

(** ** Means stay between the bounds of what they average *)

Definition qc_of_nat (n : nat) : Qc := Q2Qc (inject_Z (Z.of_nat n)).

Lemma qc_of_nat_S n : qc_of_nat (S n) = (1 + qc_of_nat n)%Qc.
Proof.
  unfold qc_of_nat. apply Qc_is_canon. unfold Qcplus. cbn [this Q2Qc].
  rewrite !Qred_correct, Nat2Z.inj_succ. unfold Z.succ.
  rewrite inject_Z_plus. ring.
Qed.

Lemma qc_of_nat_nonneg n : (0 ≤ qc_of_nat n)%Qc.
Proof.
  induction n as [|n IH]; [done|]. rewrite qc_of_nat_S.
  by apply Qcplus_nonneg_nonneg.
Qed.

Lemma qc_of_nat_pos n : (0 < qc_of_nat (S n))%Qc.
Proof.
  rewrite qc_of_nat_S. apply Qcplus_pos_nonneg; [done|apply qc_of_nat_nonneg].
Qed.

Lemma np_sum_le (l : list Qc) (hi : Qc) :
  (∀ x, x ∈ l → (x ≤ hi)%Qc) → (np_sum l ≤ hi * qc_of_nat (length l))%Qc.
Proof.
  induction l as [|x l IH]; intros H.
  - unfold np_sum, qc_of_nat. simpl. rewrite Qcmult_0_r. apply Qcle_refl.
  - cbn [length]. rewrite qc_of_nat_S.
    replace (hi * (1 + qc_of_nat (length l)))%Qc
      with (hi + hi * qc_of_nat (length l))%Qc by ring.
    change (np_sum (x :: l)) with (x + np_sum l)%Qc.
    apply Qcplus_le_compat; [apply H; by left|].
    apply IH. intros y Hy. apply H. by right.
Qed.

Lemma np_sum_ge (l : list Qc) (lo : Qc) :
  (∀ x, x ∈ l → (lo ≤ x)%Qc) → (lo * qc_of_nat (length l) ≤ np_sum l)%Qc.
Proof.
  induction l as [|x l IH]; intros H.
  - unfold np_sum, qc_of_nat. simpl. rewrite Qcmult_0_r. apply Qcle_refl.
  - cbn [length]. rewrite qc_of_nat_S.
    replace (lo * (1 + qc_of_nat (length l)))%Qc
      with (lo + lo * qc_of_nat (length l))%Qc by ring.
    change (np_sum (x :: l)) with (x + np_sum l)%Qc.
    apply Qcplus_le_compat; [apply H; by left|].
    apply IH. intros y Hy. apply H. by right.
Qed.

(** The mean of an array lies between any two bounds of its entries. *)
Lemma np_average_bounds (l : list Qc) (lo hi v : Qc) :
  (∀ x, x ∈ l → (lo ≤ x ∧ x ≤ hi)%Qc) →
  np_average l = Some v → (lo ≤ v ∧ v ≤ hi)%Qc.
Proof.
  intros H. destruct l as [|x l]; [done|]. unfold np_average.
  fold (qc_of_nat (length (x :: l))). intros [= <-].
  pose proof (qc_of_nat_pos (length l)) as Hpos.
  assert (qc_of_nat (length (x :: l)) ≠ 0%Qc) as Hne.
  { intros Heq. cbn [length] in Heq. rewrite Heq in Hpos. by apply Qclt_not_le in Hpos. }
  split.
  - apply (Qcmult_le_mono_pos_r _ _ (qc_of_nat (length (x :: l))) Hpos).
    rewrite (Qcmult_comm (_ / _)), Qcmult_div_r by done.
    apply (np_sum_ge (x :: l) lo). intros y Hy. by apply H.
  - apply (Qcmult_le_mono_pos_r _ _ (qc_of_nat (length (x :: l))) Hpos).
    rewrite (Qcmult_comm (_ / _)), Qcmult_div_r by done.
    apply (np_sum_le (x :: l) hi). intros y Hy. by apply H.
Qed.

Lemma np_average_const (l : list Qc) (c : Qc) :
  l ≠ [] → (∀ x, x ∈ l → x = c) → np_average l = Some c.
Proof.
  intros Hl H. destruct (np_average l) as [v|] eqn:Hv.
  - f_equal. apply Qcle_antisym; eapply (np_average_bounds l c c v); try done.
    all: intros x ->%H; split; apply Qcle_refl.
  - by destruct l.
Qed.

(** ** [calc_similarity]: range, self-similarity, tokens that are dropped,
    the one exception *)

Lemma best_match_ge_acc (f : string → Qc) (l : list string) (m : Qc) :
  (m ≤ foldl (λ max_score t, py_max max_score (f t)) m l)%Qc.
Proof.
  revert m. induction l as [|t l IH]; intros m; simpl; [apply Qcle_refl|].
  etrans; [apply py_max_ub_l|apply IH].
Qed.

Lemma best_match_ge (f : string → Qc) (l : list string) (m : Qc) t :
  t ∈ l → (f t ≤ foldl (λ max_score t, py_max max_score (f t)) m l)%Qc.
Proof.
  revert m. induction l as [|t' l IH]; intros m Ht; [by apply elem_of_nil in Ht|].
  simpl. apply elem_of_cons in Ht as [->|Ht].
  - etrans; [apply py_max_ub_r|apply best_match_ge_acc].
  - by apply IH.
Qed.

Lemma best_match_le (f : string → Qc) (l : list string) (m hi : Qc) :
  (m ≤ hi)%Qc → (∀ t, t ∈ l → (f t ≤ hi)%Qc) →
  (foldl (λ max_score t, py_max max_score (f t)) m l ≤ hi)%Qc.
Proof.
  revert m. induction l as [|t l IH]; intros m Hm Hf; simpl; [done|].
  apply IH.
  - apply py_max_lub; [done|]. apply Hf. by left.
  - intros t' Ht'. apply Hf. by right.
Qed.

Section SimilarityValues.

Variable score : string → string → Qc.

Lemma best_matches_bounds a b hi x :
  (0 ≤ hi)%Qc → (∀ s t, s ∈ a → t ∈ b → (score s t ≤ hi)%Qc) →
  x ∈ best_matches_a score a b ++ best_matches_b score a b →
  (0 ≤ x ∧ x ≤ hi)%Qc.
Proof.
  intros Hhi Hs [Hx|Hx]%elem_of_app;
    apply list_elem_of_fmap in Hx as (t & -> & Ht); split;
    try apply best_match_ge_acc; apply best_match_le; try done.
  - intros t' Ht'. by apply Hs.
  - intros t' Ht'. by apply Hs.
Qed.

Lemma best_match_average_bounds a b hi :
  (0 ≤ hi)%Qc → (∀ s t, s ∈ a → t ∈ b → (score s t ≤ hi)%Qc) →
  (0 ≤ best_match_average score a b ∧ best_match_average score a b ≤ hi)%Qc.
Proof.
  intros Hhi Hs. unfold best_match_average.
  destruct (np_average _) as [v|] eqn:Hv; [|by split; [apply Qcle_refl|]].
  apply (np_average_bounds _ 0%Qc hi v) in Hv; [done|].
  intros x Hx. by eapply best_matches_bounds.
Qed.

Lemma best_match_average_self a :
  a ≠ [] → (∀ t, t ∈ a → score t t = 1%Qc) →
  (∀ s t, s ∈ a → t ∈ a → (score s t ≤ 1)%Qc) →
  best_match_average score a a = 1%Qc.
Proof.
  intros Ha Hself Hle. unfold best_match_average.
  rewrite (np_average_const _ 1%Qc); [done| |].
  - destruct a; [done|]. unfold best_matches_a. by simpl.
  - intros x [Hx|Hx]%elem_of_app;
      apply list_elem_of_fmap in Hx as (t & -> & Ht); apply Qcle_antisym.
    + apply best_match_le; [done|]. intros t' Ht'. by apply Hle.
    + rewrite <- (Hself t Ht) at 1. by apply (best_match_ge (score t)).
    + apply best_match_le; [done|]. intros t' Ht'. by apply Hle.
    + rewrite <- (Hself t Ht) at 1. by apply (best_match_ge (λ s, score s t)).
Qed.

Lemma proc_terms_filter ids alias terms :
  proc_terms ids alias (filter (λ t, t ∈ ids) terms) = proc_terms ids alias terms.
Proof.
  induction terms as [|t terms IH]; [done|].
  rewrite filter_cons. case_decide as Ht.
  - simpl. rewrite bool_decide_eq_true_2 by done. by rewrite IH.
  - rewrite proc_terms_drop by done. exact IH.
Qed.

Lemma proc_terms_length ids alias terms l :
  proc_terms ids alias terms = Ok l →
  length l = length (filter (λ t, t ∈ ids) terms).
Proof.
  revert l. induction terms as [|t terms IH]; intros l; simpl.
  - by intros [= <-].
  - rewrite filter_cons. case_bool_decide as Ht.
    + rewrite decide_True by done.
      destruct (if str_contains "HP" t then _ else _); [|done].
      destruct (proc_terms ids alias terms); [|done]. intros [= <-].
      simpl. f_equal. by apply IH.
    + rewrite decide_False by done. apply IH.
Qed.

(** The members of a processed list: tokens of the input that are nodes,
    as they are when they hold ["HP"], else what the alias index gives. *)
Lemma proc_terms_elem_of ids alias terms l x :
  proc_terms ids alias terms = Ok l → x ∈ l →
  ∃ t, t ∈ terms ∧ t ∈ ids ∧
       (x = t ∧ str_contains "HP" t = true ∨
        alias !! t = Some x ∧ str_contains "HP" t = false).
Proof.
  revert l. induction terms as [|t terms IH]; intros l; simpl.
  - intros [= <-] Hx. by apply elem_of_nil in Hx.
  - case_bool_decide as Ht.
    + destruct (str_contains "HP" t) eqn:Hhp.
      * destruct (proc_terms ids alias terms) as [l'|]; [|done]. intros [= <-].
        intros [->|Hx]%elem_of_cons.
        -- exists t. split; [by left|]. split; [done|]. by left.
        -- destruct (IH l' eq_refl Hx) as (t' & ? & ? & ?).
           exists t'. split; [by right|done].
      * destruct (alias !! t) as [v|] eqn:Hv; [|done].
        destruct (proc_terms ids alias terms) as [l'|]; [|done]. intros [= <-].
        intros [->|Hx]%elem_of_cons.
        -- exists t. split; [by left|]. split; [done|]. by right.
        -- destruct (IH l' eq_refl Hx) as (t' & ? & ? & ?).
           exists t'. split; [by right|done].
    + intros Hl Hx. destruct (IH l Hl Hx) as (t' & ? & ? & ?).
      exists t'. split; [by right|done].
Qed.

(** The comprehension raises exactly when a token is a node whose
    identifier does not hold ["HP"] and is no key of the alias index. *)
Lemma proc_terms_raises ids alias terms :
  (∃ e, proc_terms ids alias terms = Raise e) ↔
  ∃ t, t ∈ terms ∧ t ∈ ids ∧ str_contains "HP" t = false ∧ alias !! t = None.
Proof.
  induction terms as [|t terms IH]; simpl.
  - split; [by intros [e ?]|]. intros (t & Ht & _). by apply elem_of_nil in Ht.
  - case_bool_decide as Ht.
    + destruct (str_contains "HP" t) eqn:Hhp.
      * destruct (proc_terms ids alias terms) as [l'|e'] eqn:Hp.
        -- split; [by intros [e ?]|]. intros (t' & [->|Ht']%elem_of_cons & ? & ? & ?).
           ++ congruence.
           ++ destruct IH as [_ IH]. destruct IH as [e He]; [by exists t'|done].
        -- split; [|by eexists]. intros _.
           destruct IH as [IH _]. destruct IH as (t' & ? & ?); [by eexists|].
           exists t'. split; [by right|done].
      * destruct (alias !! t) as [v|] eqn:Hv.
        -- destruct (proc_terms ids alias terms) as [l'|e'] eqn:Hp.
           ++ split; [by intros [e ?]|].
              intros (t' & [->|Ht']%elem_of_cons & ? & ? & ?); [congruence|].
              destruct IH as [_ IH]. destruct IH as [e He]; [by exists t'|done].
           ++ split; [|by eexists]. intros _.
              destruct IH as [IH _]. destruct IH as (t' & ? & ?); [by eexists|].
              exists t'. split; [by right|done].
        -- split; [|by eexists]. intros _. exists t. split; [by left|done].
    + rewrite IH. split.
      * intros (t' & ? & ?). exists t'. split; [by right|done].
      * intros (t' & [->|Ht']%elem_of_cons & Hin & ?); [done|]. by exists t'.
Qed.

End SimilarityValues.


Section SimilarityExtras.

Variable score : string → string → Qc.



(** X2. With a scorer that gives 1 to a term with itself and never more
    than 1, the similarity of a list to itself is 1 when one of its tokens is
    a node of the graph, and 0 when none is. *)
Theorem calc_similarity_self (σ σ' : world) (terms : list string) (v : Qc) :
  (∀ t, score t t = 1%Qc) → (∀ s t, (score s t ≤ 1)%Qc) →
  calc_similarity score terms terms σ = (Ok v, σ') →
  ((∃ t, t ∈ terms ∧ t ∈ node_ids (hpo_network σ)) → v = 1%Qc) ∧
  ((∀ t, t ∈ terms → t ∉ node_ids (hpo_network σ)) → v = 0%Qc).
Proof.
  intros Hself Hle. rewrite run_calc_similarity.
  destruct (proc_terms _ _ terms) as [a|] eqn:Ha; [|done]. intros [= <- <-].
  split.
  - intros (t & Ht & Hin). apply best_match_average_self; [|done..].
    apply proc_terms_length in Ha. intros ->. simpl in Ha.
    assert (t ∈ filter (λ t, t ∈ node_ids (hpo_network σ)) terms) as Hf
      by (by apply list_elem_of_filter).
    destruct (filter _ terms); [by apply elem_of_nil in Hf|done].
  - intros Habs. rewrite proc_terms_absent in Ha by done. injection Ha as <-.
    apply best_match_average_nil_l.
Qed.

(** X3. Tokens that are no nodes of the graph do not count: the two lists
    can be replaced by their tokens that are nodes. *)
Theorem calc_similarity_ignores_unknown (σ : world) (terms_a terms_b : list string) :
  calc_similarity score terms_a terms_b σ =
  calc_similarity score
    (filter (λ t, t ∈ node_ids (hpo_network σ)) terms_a)
    (filter (λ t, t ∈ node_ids (hpo_network σ)) terms_b) σ.
Proof. by rewrite !run_calc_similarity, !proc_terms_filter. Qed.

(** X4. [calc_similarity] raises only [KeyError], leaves the state as it is
    when it does, and does so exactly when a token of one of the lists is a
    node whose identifier does not hold ["HP"] and is no key of the alias
    index. *)
Theorem calc_similarity_raises (σ : world) (terms_a terms_b : list string) :
  (∀ e σ', calc_similarity score terms_a terms_b σ = (Raise e, σ') →
           e = KeyError ∧ σ' = σ) ∧
  ((∃ e σ', calc_similarity score terms_a terms_b σ = (Raise e, σ')) ↔
   ∃ t, t ∈ terms_a ++ terms_b ∧ t ∈ node_ids (hpo_network σ) ∧
        str_contains "HP" t = false ∧ name_to_id_and_reverse σ !! t = None).
Proof.
  rewrite run_calc_similarity.
  pose proof (proc_terms_raises (node_ids (hpo_network σ))
                (name_to_id_and_reverse σ) terms_a) as Hra.
  pose proof (proc_terms_raises (node_ids (hpo_network σ))
                (name_to_id_and_reverse σ) terms_b) as Hrb.
  destruct (proc_terms _ _ terms_a) as [a|ea] eqn:Ha;
    [destruct (proc_terms _ _ terms_b) as [b|eb] eqn:Hb|].
  - split; [done|]. split; [by intros (e & σ' & ?)|].
    intros (t & [Ht|Ht]%elem_of_app & H).
    + destruct Hra as [_ Hra]. destruct Hra as [e ?]; [by exists t|done].
    + destruct Hrb as [_ Hrb]. destruct Hrb as [e ?]; [by exists t|done].
  - split.
    + intros e σ' [= <- <-]. by apply proc_terms_raise in Hb.
    + split; [|by eexists _, _]. intros _.
      destruct Hrb as [Hrb _]. destruct Hrb as (t & Ht & H); [by eexists|].
      exists t. split; [apply elem_of_app; by right|done].
  - split.
    + intros e σ' [= <- <-]. by apply proc_terms_raise in Ha.
    + split; [|by eexists _, _]. intros _.
      destruct Hra as [Hra _]. destruct Hra as (t & Ht & H); [by eexists|].
      exists t. split; [apply elem_of_app; by left|done].
Qed.

End SimilarityExtras.

Lemma toy_score_self t : toy_score t t = 1%Qc.
Proof. unfold toy_score. by rewrite bool_decide_eq_true_2. Qed.

Lemma toy_score_le_1 s t : (toy_score s t ≤ 1)%Qc.
Proof. unfold toy_score. by repeat case_bool_decide. Qed.


Lemma calc_similarity_self_witness :
  ∃ v, calc_similarity toy_score ["HP:0000729"; "Seizure"] ["HP:0000729"; "Seizure"]
         toy_world = (Ok v, toy_world) ∧ v = 1%Qc.
Proof.
  assert (∃ v, calc_similarity toy_score ["HP:0000729"; "Seizure"]
                 ["HP:0000729"; "Seizure"] toy_world = (Ok v, toy_world)) as [v Hv].
  { eexists. rewrite run_calc_similarity. by vm_compute. }
  exists v. split; [exact Hv|].
  destruct (calc_similarity_self toy_score _ _ _ _ toy_score_self toy_score_le_1 Hv)
    as [Hone _].
  apply Hone. exists "HP:0000729". split; [by left|].
  apply (bool_decide_unpack _). by vm_compute.
Defined.

(** ** [filter_hpo_df] and [calc_full_sim_mat]: failures, repeated calls,
    what the matrix depends on *)

Lemma build_exclude_raise G roots acc e :
  build_exclude G roots acc = Raise e →
  e = NetworkXError ∧ ∃ r, r ∈ roots ∧ r ∉ node_ids G.
Proof.
  revert acc. induction roots as [|r roots IH]; intros acc; simpl; [done|].
  unfold nx_descendants. case_bool_decide as Hr.
  - intros H. destruct (IH _ H) as [-> (r' & ? & ?)].
    split; [done|]. exists r'. split; [by right|done].
  - intros [= <-]. split; [done|]. exists r. split; [by left|done].
Qed.

(** The value of a key after a sequence of writes: what the last write to
    it stored. *)
Lemma apply_writes_fold ws (m : gmap string string) k :
  apply_writes ws m !! k =
  foldl (λ o kv, if decide (kv.1 = k) then Some kv.2 else o) (m !! k) ws.
Proof.
  revert m. induction ws as [|[k' v'] ws IH]; intros m; [done|].
  cbn [apply_writes foldl fst snd]. fold (apply_writes ws (<[k':=v']> m)).
  rewrite IH. f_equal. rewrite lookup_insert. by repeat case_decide.
Qed.

Lemma last_write_cases (ws : list (string * string)) k :
  (∀ o, foldl (λ o kv, if decide (kv.1 = k) then Some kv.2 else o) o ws = o) ∨
  (∃ v, ∀ o, foldl (λ o kv, if decide (kv.1 = k) then Some kv.2 else o) o ws = Some v).
Proof.
  induction ws as [|[k' v'] ws IH]; [by left|]. cbn [foldl fst snd].
  destruct IH as [IH|[v IH]].
  - destruct (decide (k' = k)) as [->|Hne].
    + right. exists v'. intros o. by rewrite IH.
    + left. intros o. by rewrite IH.
  - right. exists v. intros o. by rewrite IH.
Qed.

(** Writing the same entries a second time changes nothing. *)
Lemma apply_writes_idemp ws (m : gmap string string) :
  apply_writes ws (apply_writes ws m) = apply_writes ws m.
Proof.
  apply map_eq. intros k. rewrite (apply_writes_fold ws (apply_writes ws m)).
  rewrite (apply_writes_fold ws m).
  destruct (last_write_cases ws k) as [H|[v H]]; by rewrite !H.
Qed.

Lemma after_filter_idemp σ : after_filter (after_filter σ) = after_filter σ.
Proof.
  unfold after_filter, with_alias. cbn [hpo_network name_to_id_and_reverse locals].
  by rewrite apply_writes_idemp.
Qed.








(** X6. [filter_hpo_df] raises exactly when one of the five excluded roots
    is no node of the graph; the exception is [NetworkXError] of
    [nx.descendants], and the writes to the alias index have been made by
    then. *)
Theorem filter_hpo_df_raises (σ : world) (df : collection) :
  (∀ e σ', filter_hpo_df df σ = (Raise e, σ') →
           e = NetworkXError ∧ σ' = after_filter σ) ∧
  ((∃ e σ', filter_hpo_df df σ = (Raise e, σ')) ↔
   ∃ r, r ∈ parents_to_exclude ∧ r ∉ node_ids (hpo_network σ)).
Proof.
  rewrite run_filter_hpo_df.
  destruct (build_exclude (hpo_network σ) _ _) as [ex|e] eqn:Hex.
  - split; [done|]. split; [by intros (e & σ' & ?)|].
    intros (r & Hr & Hn).
    destruct (build_exclude_missing_root (hpo_network σ) _ [] r Hr Hn) as [e He].
    congruence.
  - apply build_exclude_raise in Hex as [-> Hr]. split.
    + by intros e σ' [= <- <-].
    + split; [done|]. by eexists _, _.
Qed.

(** A graph that lacks excluded roots, and the state built on it. *)
Definition rootless_network : DiGraph :=
  Graph [("HP:0000001", term "All"); ("HP:0001250", term "Seizure")]
        [("HP:0000001", "HP:0001250")].

Definition rootless_world : world := init rootless_network rootless_network.

Lemma filter_hpo_df_raises_witness :
  filter_hpo_df (PyList ["HP:0001250"]) rootless_world =
    (Raise NetworkXError, after_filter rootless_world) ∧
  ∃ r, r ∈ parents_to_exclude ∧ r ∉ node_ids (hpo_network rootless_world).
Proof.
  destruct (filter_hpo_df_raises rootless_world (PyList ["HP:0001250"]))
    as [Hkind Hiff].
  assert (∃ r, r ∈ parents_to_exclude ∧ r ∉ node_ids (hpo_network rootless_world))
    as Hr.
  { exists "HP:0000708". split; [by left|]. apply (bool_decide_unpack _). by vm_compute. }
  split; [|exact Hr].
  destruct Hiff as [_ Hraise]. destruct (Hraise Hr) as (e & σ' & Hrun).
  destruct (Hkind e σ' Hrun) as [-> ->]. exact Hrun.
Defined.

(** X7. A token that is no node of a well-formed graph is never removed by
    [filter_hpo_df]: only nodes can be excluded roots or below one. *)
Theorem filter_hpo_df_keeps_unknown (σ σ' : world) (df out : collection) :
  wf_graph (hpo_network σ) →
  filter_hpo_df df σ = (Ok out, σ') →
  ∀ i L t, term_lists df !! i = Some L → t ∈ L → t ∉ node_ids (hpo_network σ) →
    ∃ L', term_lists out !! i = Some L' ∧ t ∈ L'.
Proof.
  intros [_ Hwf]. rewrite run_filter_hpo_df.
  destruct (build_exclude (hpo_network σ) _ _) as [ex|] eqn:Hex; [|done].
  intros [= <- <-] i L t HL Ht Hn.
  destruct (filter_shape_closure _ _ df Hex) as [_ Hlists].
  destruct (Hlists i L HL) as (L' & HL' & _ & Hkeep & _).
  exists L'. split; [done|]. apply Hkeep; [done|].
  intros (r & Hr & Hpath).
  destruct (decide (t = r)) as [->|Hne].
  - destruct (decide (r ∈ node_ids (hpo_network σ))) as [|Hmiss]; [done|].
    destruct (build_exclude_missing_root (hpo_network σ) _ [] r Hr Hmiss) as [e He].
    congruence.
  - apply rtc_inv_r in Hpath as [->|(u & _ & Hedge)]; [done|].
    by apply Hwf in Hedge as [_ ?].
Qed.

Lemma filter_hpo_df_keeps_unknown_witness :
  let df := PyList ["HP:0000729"; "unrelated-term"] in
  wf_graph (hpo_network toy_world) ∧
  ("unrelated-term" ∉ node_ids (hpo_network toy_world)) ∧
  ∃ out σ' L',
    filter_hpo_df df toy_world = (Ok out, σ') ∧
    term_lists out !! 0 = Some L' ∧ "unrelated-term" ∈ L'.
Proof.
  intros df.
  assert ("unrelated-term" ∉ node_ids (hpo_network toy_world)) as Hn
    by (apply (bool_decide_unpack _); by vm_compute).
  assert (∃ out σ', filter_hpo_df df toy_world = (Ok out, σ')) as (out & σ' & Hrun).
  { eexists _, _. by vm_compute. }
  split; [exact toy_network_wf|]. split; [exact Hn|].
  destruct (filter_hpo_df_keeps_unknown toy_world σ' df out toy_network_wf Hrun
              0 ["HP:0000729"; "unrelated-term"] "unrelated-term" eq_refl)
    as (L' & HL' & Hin); [by right; left|exact Hn|].
  by exists out, σ', L'.
Defined.

Lemma excluded_build G ex t :
  build_exclude G parents_to_exclude [] = Ok ex → t ∈ ex ↔ excluded G t.
Proof.
  intros Hex. rewrite (build_exclude_spec _ _ _ _ t Hex). unfold excluded.
  split; [|by right]. intros [H|?]; [by apply elem_of_nil in H|done].
Qed.




Section MatrixExtras.

Variable score : string → string → Qc.

(** X8. On an array without rows [calc_full_sim_mat] raises [IndexError]
    before anything is written; on any other array, when one of the excluded
    roots is no node of the graph, it raises [NetworkXError] after the
    writes of [filter_hpo_df] to the alias index. *)
Theorem calc_full_sim_mat_failures (σ : world) :
  calc_full_sim_mat score [] σ = (Raise IndexError, σ) ∧
  ∀ x r, x ≠ [] → r ∈ parents_to_exclude → r ∉ node_ids (hpo_network σ) →
         calc_full_sim_mat score x σ = (Raise NetworkXError, after_filter σ).
Proof.
  split; [done|]. intros x r Hx Hr Hn. rewrite run_calc_full_sim_mat by done.
  destruct (build_exclude_missing_root (hpo_network σ) _ [] r Hr Hn) as [e He].
  rewrite He. by apply build_exclude_raise in He as [-> _].
Qed.


(** The entries of a matrix [calc_full_sim_mat] returned, in terms of the
    processed lists of the individuals. *)
Lemma calc_full_sim_mat_cells (σ σ' : world) (x : list row) sim_mat :
  calc_full_sim_mat score x σ = (Ok sim_mat, σ') →
  ∃ ex, build_exclude (hpo_network σ) parents_to_exclude [] = Ok ex ∧
    σ' = after_filter σ ∧
    ∀ i z xi xz, x !! i = Some xi → x !! z = Some xz →
      ∃ a b,
        proc_terms (node_ids (hpo_network σ)) (name_to_id_and_reverse σ')
                   (list_set (not_excluded ex (hpo_all xi))) = Ok a ∧
        proc_terms (node_ids (hpo_network σ)) (name_to_id_and_reverse σ')
                   (list_set (not_excluded ex (hpo_all xz))) = Ok b ∧
        sim_mat !! i ≫= (.!! z) = Some (best_match_average score a b).
Proof.
  intros Hrun. destruct (decide (x = [])) as [->|Hx]; [done|].
  rewrite run_calc_full_sim_mat in Hrun by done.
  destruct (build_exclude _ _ _) as [ex|]; [|done]. exists ex. split; [done|].
  destruct (result_map _ _) as [M|] eqn:HM; [|done]. injection Hrun as <- <-.
  split; [done|]. intros i z xi xz Hi Hz.
  destruct (result_map_lookup _ _ _ i i HM) as (r & Hr & Hrow).
  { apply lookup_seq. split; [done|]. by eapply lookup_lt_Some. }
  destruct (result_map_lookup _ _ _ z z Hrow) as (v & Hv & Hc).
  { apply lookup_seq. split; [done|]. by eapply lookup_lt_Some. }
  unfold cell, filtered_hpos in Hc. rewrite !list_lookup_fmap, Hi, Hz in Hc.
  simpl in Hc. rewrite run_calc_similarity in Hc.
  change (hpo_network (after_filter σ)) with (hpo_network σ) in Hc.
  destruct (proc_terms _ _ (list_set (not_excluded ex (hpo_all xi)))) as [a|];
    [|done].
  destruct (proc_terms _ _ (list_set (not_excluded ex (hpo_all xz)))) as [b|];
    [|done].
  simpl in Hc. injection Hc as <-. exists a, b.
  split; [done|]. split; [done|]. by rewrite Hr.
Qed.

(** A term of an individual that the filter keeps and the graph knows. *)
Definition scored_term (G : DiGraph) (r : row) (t : string) : Prop :=
  t ∈ hpo_all r ∧ t ∈ node_ids G ∧ ¬ excluded G t.

Lemma proc_terms_nonempty (σ : world) ex r a alias :
  (∀ t, t ∈ ex ↔ excluded (hpo_network σ) t) →
  proc_terms (node_ids (hpo_network σ)) alias
             (list_set (not_excluded ex (hpo_all r))) = Ok a →
  (a ≠ [] ↔ ∃ t, scored_term (hpo_network σ) r t).
Proof.
  intros Hex Ha. apply proc_terms_length in Ha.
  assert (∀ t, t ∈ filter (λ t, t ∈ node_ids (hpo_network σ))
                     (list_set (not_excluded ex (hpo_all r))) ↔
               scored_term (hpo_network σ) r t) as Hmem.
  { intros t. unfold list_set, scored_term.
    rewrite list_elem_of_filter, elem_of_remove_dups.
    rewrite (not_excluded_spec _ _ _ _ Hex). tauto. }
  split.
  - intros Hne. destruct (filter _ _) as [|t l] eqn:Hf.
    + by destruct a.
    + exists t. apply Hmem. by left.
  - intros [t Ht%Hmem] ->. simpl in Ha.
    destruct (filter _ _); [by apply elem_of_nil in Ht|done].
Qed.

(** X10. With a scorer that gives 1 to a term with itself and never more
    than 1, every entry of a matrix [calc_full_sim_mat] returns lies between
    0 and 1; the diagonal entry of an individual is 1 when one of its terms
    is a node the filter keeps; and when none is, its whole row and column
    are 0. *)
Theorem calc_full_sim_mat_unit_diagonal
    (σ σ' : world) (x : list row) (sim_mat : list (list Qc)) :
  (∀ t, score t t = 1%Qc) → (∀ s t, (score s t ≤ 1)%Qc) →
  calc_full_sim_mat score x σ = (Ok sim_mat, σ') →
  ∀ i z xi xz, x !! i = Some xi → x !! z = Some xz →
    ∃ v w, sim_mat !! i ≫= (.!! z) = Some v ∧ sim_mat !! z ≫= (.!! i) = Some w ∧
           (0 ≤ v ∧ v ≤ 1)%Qc ∧
           ((∃ t, scored_term (hpo_network σ) xi t) → i = z → v = 1%Qc) ∧
           ((∀ t, ¬ scored_term (hpo_network σ) xi t) → v = 0%Qc ∧ w = 0%Qc).
Proof.
  intros Hself Hle Hrun i z xi xz Hi Hz.
  destruct (calc_full_sim_mat_cells _ _ _ _ Hrun) as (ex & Hex & -> & Hcells).
  assert (∀ t, t ∈ ex ↔ excluded (hpo_network σ) t) as Hspec.
  { intros t. rewrite (build_exclude_spec _ _ _ _ t Hex). unfold excluded.
    split; [|by right]. intros [H|?]; [by apply elem_of_nil in H|done]. }
  destruct (Hcells i z xi xz Hi Hz) as (a & b & Ha & Hb & Hv).
  destruct (Hcells z i xz xi Hz Hi) as (b' & a' & Hb' & Ha' & Hw).
  rewrite Ha in Ha'. rewrite Hb in Hb'. injection Ha' as <-. injection Hb' as <-.
  eexists _, _. split; [exact Hv|]. split; [exact Hw|]. split; [|split].
  - by apply best_match_average_bounds.
  - intros Hsc ->. rewrite Hi in Hz. injection Hz as <-.
    rewrite Ha in Hb. injection Hb as <-.
    apply best_match_average_self; [|done..].
    by apply (proc_terms_nonempty σ ex xi a _ Hspec Ha).
  - intros Hnone. assert (a = []) as ->.
    { destruct (decide (a = [])) as [|Hne]; [done|].
      apply (proc_terms_nonempty σ ex xi a _ Hspec Ha) in Hne as [t Ht].
      by destruct (Hnone t). }
    by rewrite best_match_average_nil_l, best_match_average_nil_r.
Qed.

End MatrixExtras.

Lemma calc_full_sim_mat_failures_witness :
  [Row [] ["HP:0001250"]] ≠ [] ∧ "HP:0000708" ∈ parents_to_exclude ∧
  ("HP:0000708" ∉ node_ids (hpo_network rootless_world)) ∧
  calc_full_sim_mat toy_score [Row [] ["HP:0001250"]] rootless_world =
    (Raise NetworkXError, after_filter rootless_world).
Proof.
  assert ([Row [] ["HP:0001250"]] ≠ []) as Hx by done.
  assert ("HP:0000708" ∈ parents_to_exclude) as Hr by (by left).
  assert ("HP:0000708" ∉ node_ids (hpo_network rootless_world)) as Hn
    by (apply (bool_decide_unpack _); by vm_compute).
  destruct (calc_full_sim_mat_failures toy_score rootless_world) as [_ Hroot].
  split; [exact Hx|]. split; [exact Hr|]. split; [exact Hn|].
  exact (Hroot _ _ Hx Hr Hn).
Defined.


Lemma calc_full_sim_mat_unit_diagonal_witness :
  let x := [Row [] ["HP:0001250"; "HP:0001249"]; Row [] ["HP:0000729"; "unknown"]] in
  (∀ t, toy_score t t = 1%Qc) ∧ (∀ s t, (toy_score s t ≤ 1)%Qc) ∧
  ∃ sim_mat σ',
    calc_full_sim_mat toy_score x toy_world = (Ok sim_mat, σ') ∧
    sim_mat !! 0 ≫= (.!! 0) = Some 1%Qc ∧
    sim_mat !! 1 ≫= (.!! 1) = Some 0%Qc.
Proof.
  intros x.
  split; [exact toy_score_self|]. split; [exact toy_score_le_1|].
  assert (∃ sim_mat σ', calc_full_sim_mat toy_score x toy_world = (Ok sim_mat, σ'))
    as (sim_mat & σ' & Hrun).
  { eexists _, _. by vm_compute. }
  exists sim_mat, σ'. split; [exact Hrun|].
  pose proof (calc_full_sim_mat_unit_diagonal toy_score toy_world σ' x sim_mat
                toy_score_self toy_score_le_1 Hrun) as Hd.
  split.
  - destruct (Hd 0 0 (Row [] ["HP:0001250"; "HP:0001249"])
                (Row [] ["HP:0001250"; "HP:0001249"]) eq_refl eq_refl)
      as (v & w & Hv & _ & _ & Hone & _).
    rewrite Hv. f_equal. apply Hone; [|done].
    exists "HP:0001250". split; [by left|]. split.
    + apply (bool_decide_unpack _). by vm_compute.
    + assert (∃ ex, build_exclude toy_network parents_to_exclude [] = Ok ex ∧
                    "HP:0001250" ∉ ex) as (ex & Hex & Hnex).
      { eexists. split; [by vm_compute|]. apply (bool_decide_unpack _). by vm_compute. }
      intros Hexcl. apply Hnex, (excluded_build _ _ _ Hex), Hexcl.
  - destruct (Hd 1 1 (Row [] ["HP:0000729"; "unknown"])
                (Row [] ["HP:0000729"; "unknown"]) eq_refl eq_refl)
      as (v & w & Hv & _ & _ & _ & Hzero).
    rewrite Hv. f_equal. apply Hzero.
    intros t (Ht & Hnode & Hnex). simpl in Ht.
    apply elem_of_cons in Ht as [->|Ht].
    + apply Hnex. exists "HP:0000708". split; [by left|].
      apply rtc_once. unfold edge. apply (bool_decide_unpack _). by vm_compute.
    + apply list_elem_of_singleton in Ht as ->. revert Hnode.
      apply (bool_decide_unpack _). by vm_compute.
Defined.

(** ** [get_graph]: what the result depends on, its shape, its counters *)

Lemma get_graph_returns_retained σ S r σ' g :
  wf_graph (hpo_network σ) →
  get_graph S true σ = (Ok r, σ') → deref r σ' = (Ok g, σ') →
  g = retained (hpo_network σ) S.
Proof.
  intros Hwf. rewrite run_get_graph by done. cbv zeta. intros [= <- <-].
  rewrite deref_local. congruence.
Qed.

(** The nodes the entry [r] of a resolved list adds one to. *)
Definition closure_of (G : DiGraph) (r : string) : list string :=
  match nx_ancestors G r with
  | Ok ancestors => ancestors ++ [r]
  | Raise _ => []
  end.

Lemma covers_closure G t n :
  covers G t n =
  match resolve G t with
  | Some r => bool_decide (n ∈ closure_of G r)
  | None => false
  end.
Proof.
  unfold covers, closure_of. destruct (resolve G t) as [r|]; [|done].
  destruct (nx_ancestors G r); [done|]. symmetry. apply bool_decide_eq_false_2.
  apply not_elem_of_nil.
Qed.

Lemma count_terms_resolved G S n :
  count_terms G S n =
  length (filter (λ r, n ∈ closure_of G r) (omap (resolve G) S)).
Proof.
  unfold count_terms. induction S as [|t S IH]; [done|].
  rewrite filter_cons. cbn [omap list_omap].
  destruct (decide (covers G t n = true)) as [Hc|Hc];
    rewrite covers_closure in Hc; destruct (resolve G t) as [r|]; try done.
  - apply bool_decide_eq_true_1 in Hc. rewrite filter_cons, decide_True by done.
    simpl. by rewrite IH.
  - rewrite filter_cons, decide_False; [done|].
    intros H. by apply Hc, bool_decide_eq_true_2.
Qed.

Lemma retained_ext G S S' :
  (∀ n, count_terms G S n = count_terms G S' n) → retained G S = retained G S'.
Proof.
  intros H. unfold retained.
  rewrite (with_counts_ext G (count_terms G S) (count_terms G S')) by (intros; apply H).
  f_equal. apply list_filter_iff. intros n. by rewrite H.
Qed.

(** X11. The graph [get_graph] returns depends only on the nodes the
    tokens resolve to, as a bag: the order of the tokens, tokens that resolve
    to nothing, and the choice between an identifier and an alternate
    identifier of the same node make no difference. *)
Theorem get_graph_resolved_bag
    (σ : world) (S S' : list string) (hpo_id_as_label : bool) :
  wf_graph (hpo_network σ) →
  omap (resolve (hpo_network σ)) S ≡ₚ omap (resolve (hpo_network σ)) S' →
  get_graph S hpo_id_as_label σ = get_graph S' hpo_id_as_label σ.
Proof.
  intros Hwf Hp. rewrite !run_get_graph by done. cbv zeta.
  rewrite (retained_ext _ S S'); [done|].
  intros n. rewrite !count_terms_resolved. by rewrite Hp.
Qed.

Lemma get_graph_resolved_bag_witness :
  wf_graph (hpo_network toy_world) ∧
  omap (resolve (hpo_network toy_world)) ["HP:0002125"; "no such term"; "HP:0000729"]
    ≡ₚ omap (resolve (hpo_network toy_world)) ["HP:0000729"; "HP:0001250"] ∧
  get_graph ["HP:0002125"; "no such term"; "HP:0000729"] true toy_world =
  get_graph ["HP:0000729"; "HP:0001250"] true toy_world.
Proof.
  assert (omap (resolve (hpo_network toy_world))
               ["HP:0002125"; "no such term"; "HP:0000729"]
          ≡ₚ omap (resolve (hpo_network toy_world)) ["HP:0000729"; "HP:0001250"])
    as Hp.
  { vm_compute. apply perm_swap. }
  split; [exact toy_network_wf|]. split; [exact Hp|].
  exact (get_graph_resolved_bag toy_world _ _ true toy_network_wf Hp).
Defined.

Lemma fst_filter_not_in (zeros : list string) (c : string → nat)
    (nds : list (string * node_data)) :
  (∀ n, n ∈ nds.*1 → n ∉ zeros ↔ c n ≠ 0) →
  (filter (λ nd, nd.1 ∉ zeros)
          ((λ nd, (nd.1, set_present (c nd.1) nd.2)) <$> nds)).*1 =
  filter (λ n, c n ≠ 0) nds.*1.
Proof.
  induction nds as [|[n d] nds IH]; intros Hz; [done|].
  cbn [fmap list_fmap fst snd]. change (list_fmap _ _ ?f nds) with (f <$> nds).
  rewrite !filter_cons. cbn [fst].
  specialize (IH ltac:(intros m Hm; apply Hz; by right)).
  destruct (decide (n ∉ zeros)) as [Hn|Hn].
  - rewrite decide_True by (apply Hz; [by left|done]).
    cbn [fmap list_fmap fst]. f_equal. exact IH.
  - rewrite decide_False; [exact IH|]. intros Hc. apply Hn, Hz; [by left|done].
Qed.

Lemma node_ids_retained_filter G S :
  node_ids (retained G S) = filter (λ n, count_terms G S n ≠ 0) (node_ids G).
Proof.
  unfold retained, remove_nodes_from, with_counts, node_ids. cbn [nodes].
  apply fst_filter_not_in. intros n Hn. rewrite list_elem_of_filter. tauto.
Qed.

Lemma count_terms_edge G S u v :
  edge G u v → count_terms G S v ≤ count_terms G S u.
Proof.
  intros He. unfold count_terms. apply filter_length_le.
  intros hpo (r & Hr & Hp)%covers_spec. apply covers_spec.
  exists r. split; [done|]. by eapply rtc_l.
Qed.

Lemma edges_retained G S u v :
  wf_graph G →
  (u, v) ∈ edges (retained G S) ↔
  (u, v) ∈ edges G ∧ count_terms G S u ≠ 0 ∧ count_terms G S v ≠ 0.
Proof.
  intros [_ Hwf]. unfold retained, remove_nodes_from. cbn [edges with_counts].
  rewrite list_elem_of_filter. cbn [fst snd]. rewrite !list_elem_of_filter.
  split.
  - intros [[Hu Hv] He]. destruct (Hwf u v He) as [Hun Hvn].
    split; [done|]. split; intros H0; [apply Hu|apply Hv]; done.
  - intros (He & Hu & Hv). split; [|done]. split; by intros [? _].
Qed.

(** X12. The graph [get_graph] returns with identifiers as labels is the
    part of the ontology above the resolved terms: its nodes are nodes of the
    graph, each once and in their order; its edges are exactly the edges of
    the graph that end in one of its nodes, so that with a node it holds all
    the parents of the node and the edges to them. *)
Theorem get_graph_ancestor_closed
    (σ σ' : world) (S : list string) (r : ref) (g : DiGraph) :
  wf_graph (hpo_network σ) →
  get_graph S true σ = (Ok r, σ') → deref r σ' = (Ok g, σ') →
  wf_graph g ∧
  sublist (node_ids g) (node_ids (hpo_network σ)) ∧
  (∀ u v, (u, v) ∈ edges g ↔ (u, v) ∈ edges (hpo_network σ) ∧ v ∈ node_ids g) ∧
  (∀ u v, (u, v) ∈ edges (hpo_network σ) → v ∈ node_ids g → u ∈ node_ids g).
Proof.
  intros Hwf Hrun Hg.
  rewrite (get_graph_returns_retained _ _ _ _ _ Hwf Hrun Hg). clear Hrun Hg.
  set (G := hpo_network σ) in *.
  assert (∀ n, n ∈ node_ids (retained G S) ↔
               n ∈ node_ids G ∧ count_terms G S n ≠ 0) as Hmem.
  { intros n. rewrite node_ids_retained_filter, list_elem_of_filter. tauto. }
  assert (∀ u v, (u, v) ∈ edges G → v ∈ node_ids (retained G S) →
                 u ∈ node_ids (retained G S)) as Hup.
  { intros u v He [Hv Hc]%Hmem. apply Hmem. destruct Hwf as [_ Hwf].
    split; [by apply (Hwf u v)|].
    pose proof (count_terms_edge G S u v He). lia. }
  assert (∀ u v, (u, v) ∈ edges (retained G S) ↔
                 (u, v) ∈ edges G ∧ v ∈ node_ids (retained G S)) as Hedges.
  { intros u v. rewrite (edges_retained _ _ _ _ Hwf). split.
    - intros (He & Hu & Hv). split; [done|]. apply Hmem.
      destruct Hwf as [_ Hwf]. split; [by apply (Hwf u v)|done].
    - intros [He Hv]. split; [done|].
      pose proof (Hup u v He Hv) as Hu. apply Hmem in Hu, Hv. tauto. }
  split; [|split; [|split]]; [|..|done|done].
  - split.
    + rewrite node_ids_retained_filter. apply NoDup_filter, Hwf.
    + intros u v [He Hv]%Hedges. split; [by eapply Hup|done].
  - rewrite node_ids_retained_filter. apply sublist_filter.
Qed.


(** X14. When no token resolves to a node, and so for the empty list, the
    graph [get_graph] returns has no node and no edge. *)
Theorem get_graph_nothing_resolved
    (σ : world) (S : list string) (hpo_id_as_label : bool) :
  wf_graph (hpo_network σ) →
  (∀ t, t ∈ S → resolve (hpo_network σ) t = None) →
  ∃ r σ', get_graph S hpo_id_as_label σ = (Ok r, σ') ∧
          deref r σ' = (Ok (Graph [] []), σ').
Proof.
  intros Hwf Hnone. rewrite run_get_graph by done. cbv zeta.
  assert (∀ n, count_terms (hpo_network σ) S n = 0) as Hzero.
  { intros n. destruct (decide (count_terms (hpo_network σ) S n = 0)) as [|Hne];
      [done|].
    apply count_terms_pos in Hne as (t & Ht & Hc). unfold covers in Hc.
    by rewrite (Hnone t Ht) in Hc. }
  assert (retained (hpo_network σ) S = Graph [] []) as ->.
  { assert (nodes (retained (hpo_network σ) S) = []) as Hn.
    { destruct (nodes _) as [|[n d] l] eqn:Hl; [done|].
      assert ((n, d) ∈ nodes (retained (hpo_network σ) S)) as Hin
        by (rewrite Hl; by left).
      apply nodes_retained in Hin as [Hc _]. by destruct (Hc (Hzero n)). }
    assert (edges (retained (hpo_network σ) S) = []) as He.
    { destruct (edges _) as [|[u v] l] eqn:Hl; [done|].
      assert ((u, v) ∈ edges (retained (hpo_network σ) S)) as Hin
        by (rewrite Hl; by left).
      apply (edges_retained _ _ _ _ Hwf) in Hin as (_ & Hc & _).
      by destruct (Hc (Hzero u)). }
    destruct (retained _ _). simpl in *. by subst. }
  destruct hpo_id_as_label.
  - eexists _, _. split; [done|]. apply deref_local.
  - eexists _, _. split; [done|]. by rewrite deref_local.
Qed.

Lemma get_graph_ancestor_closed_witness :
  wf_graph (hpo_network toy_world) ∧
  ∃ r σ' g,
    get_graph ["HP:0000729"; "HP:0002125"] true toy_world = (Ok r, σ') ∧
    deref r σ' = (Ok g, σ') ∧ wf_graph g ∧
    sublist (node_ids g) (node_ids (hpo_network toy_world)) ∧
    (∀ u v, (u, v) ∈ edges g ↔
            (u, v) ∈ edges (hpo_network toy_world) ∧ v ∈ node_ids g).
Proof.
  split; [exact toy_network_wf|].
  assert (∃ r σ' g,
            get_graph ["HP:0000729"; "HP:0002125"] true toy_world = (Ok r, σ') ∧
            deref r σ' = (Ok g, σ')) as (r & σ' & g & Hrun & Hg).
  { eexists _, _, _. split; by vm_compute. }
  exists r, σ', g. split; [exact Hrun|]. split; [exact Hg|].
  destruct (get_graph_ancestor_closed toy_world σ' _ r g toy_network_wf Hrun Hg)
    as (Hwf & Hsub & Hedges & _).
  split; [exact Hwf|]. split; [exact Hsub|exact Hedges].
Defined.


Lemma get_graph_nothing_resolved_witness :
  wf_graph (hpo_network toy_world) ∧
  (∀ t, t ∈ ["Seizure"; "HP:9999999"] → resolve (hpo_network toy_world) t = None) ∧
  ∃ r σ', get_graph ["Seizure"; "HP:9999999"] false toy_world = (Ok r, σ') ∧
          deref r σ' = (Ok (Graph [] []), σ').
Proof.
  assert (∀ t, t ∈ ["Seizure"; "HP:9999999"] →
               resolve (hpo_network toy_world) t = None) as Hnone.
  { intros t [->|[->|Ht]%elem_of_cons]%elem_of_cons; [by vm_compute..|].
    by apply elem_of_nil in Ht. }
  split; [exact toy_network_wf|]. split; [exact Hnone|].
  exact (get_graph_nothing_resolved toy_world _ false toy_network_wf Hnone).
Defined.

(** ** [get_graph] with display names as labels *)

Lemma foldl_insert_items {A} (f : A → string * string) (l : list A)
    (m : gmap string string) :
  foldl (λ m x, <[(f x).1 := (f x).2]> m) m l = apply_writes (f <$> l) m.
Proof.
  revert m. induction l as [|x l IH]; intros m; [done|]. simpl. by rewrite IH.
Qed.

Lemma foldl_alt_writes nds (m : gmap string string) :
  foldl (λ m node,
           match alt_id node.2 with
           | Some alts => foldl (λ m alt, <[alt := name node.2]> m) m alts
           | None => m
           end) m nds =
  apply_writes (alt_writes nds) m.
Proof.
  revert m. induction nds as [|[n d] nds IH]; intros m; [done|].
  cbn [foldl]. rewrite IH.
  change (alt_writes ((n, d) :: nds)) with
    (match alt_id d with
     | Some alts => (λ alt, (alt, name d)) <$> alts
     | None => []
     end ++ alt_writes nds).
  rewrite apply_writes_app. f_equal. cbn [snd].
  destruct (alt_id d) as [alts|]; [|done].
  by rewrite <- (foldl_insert_items (λ alt, (alt, name d))).
Qed.

Lemma id_to_name_writes g :
  id_to_name_of g =
  apply_writes (alt_writes (nodes g))
               (apply_writes ((λ nd, (nd.1, name nd.2)) <$> nodes g) ∅).
Proof.
  unfold id_to_name_of. rewrite foldl_alt_writes. f_equal.
  by rewrite <- (foldl_insert_items (λ nd : string * node_data, (nd.1, name nd.2))).
Qed.

Lemma apply_writes_lookup_none ws (m : gmap string string) k :
  (∀ v, (k, v) ∉ ws) → apply_writes ws m !! k = m !! k.
Proof.
  revert m. induction ws as [|[k' v'] ws IH]; intros m H; [done|].
  cbn [apply_writes foldl fst snd]. fold (apply_writes ws (<[k':=v']> m)).
  rewrite IH by (intros v Hv; apply (H v); by right).
  apply lookup_insert_ne. intros ->. apply (H v'). by left.
Qed.

Lemma elem_of_alt_writes nds k v :
  (k, v) ∈ alt_writes nds ↔
  ∃ n d alts, (n, d) ∈ nds ∧ alt_id d = Some alts ∧ k ∈ alts ∧ v = name d.
Proof.
  unfold alt_writes. rewrite list_elem_of_bind. split.
  - intros ([n d] & Hin & Hnd). simpl in Hin.
    destruct (alt_id d) as [alts|] eqn:Ha; [|by apply elem_of_nil in Hin].
    apply list_elem_of_fmap in Hin as (x & [= -> ->] & Hx). by exists n, d, alts.
  - intros (n & d & alts & Hnd & Ha & Hk & ->). exists (n, d). split; [|done].
    simpl. rewrite Ha. apply list_elem_of_fmap. by exists k.
Qed.

(** A node that no node lists as an alternate identifier is relabelled
    with its own name. *)
Lemma id_to_name_node g n d :
  NoDup (node_ids g) → (n, d) ∈ nodes g →
  (∀ m e alts, (m, e) ∈ nodes g → alt_id e = Some alts → n ∉ alts) →
  id_to_name_of g !! n = Some (name d).
Proof.
  intros Hnd Hin Halt. rewrite id_to_name_writes.
  rewrite apply_writes_lookup_none.
  - apply apply_writes_lookup.
    + apply list_elem_of_fmap. by exists (n, d).
    + intros v' ([m e] & [= -> ->] & Hme)%list_elem_of_fmap. f_equal.
      apply list_elem_of_lookup in Hin as [i Hi], Hme as [j Hj].
      assert (i = j) as ->.
      { eapply NoDup_lookup; [exact Hnd|..]; unfold node_ids;
          rewrite list_lookup_fmap; [by rewrite Hi|by rewrite Hj]. }
      congruence.
  - intros v (m & e & alts & Hme & Ha & Hk & _)%elem_of_alt_writes.
    by apply (Halt m e alts Hme Ha).
Qed.

Lemma dict_from_items_NoDup {V} (items acc : list (string * V)) :
  NoDup ((acc ++ items).*1) → dict_from_items items acc = acc ++ items.
Proof.
  revert acc. induction items as [|[k v] items IH]; intros acc Hnd; simpl.
  - by rewrite app_nil_r.
  - rewrite bool_decide_eq_false_2.
    + rewrite IH; [by rewrite <- app_assoc|]. by rewrite <- app_assoc.
    + rewrite fmap_app in Hnd. apply NoDup_app in Hnd as (_ & Hd & _).
      intros Hk. apply (Hd k Hk). by left.
Qed.

(** X15. When no two nodes of the graph with identifiers have the same
    display name, and no node is listed as an alternate identifier, the graph
    [get_graph] returns with [hpo_id_as_label] false has the same nodes in
    the same order under their display names, with the same attributes,
    counters included: nothing is merged. *)
Theorem get_graph_display_names
    (σ σ1 : world) (S : list string) (r : ref) (g : DiGraph) :
  wf_graph (hpo_network σ) →
  get_graph S true σ = (Ok r, σ1) → deref r σ1 = (Ok g, σ1) →
  NoDup ((λ nd, name nd.2) <$> nodes g) →
  (∀ n m e alts, n ∈ node_ids g → (m, e) ∈ nodes g → alt_id e = Some alts →
                 n ∉ alts) →
  ∃ r' σ2 g',
    get_graph S false σ = (Ok r', σ2) ∧ deref r' σ2 = (Ok g', σ2) ∧
    nodes g' = (λ nd, (name nd.2, nd.2)) <$> nodes g.
Proof.
  intros Hwf Hrun Hg Hnames Halt.
  pose proof (get_graph_returns_retained _ _ _ _ _ Hwf Hrun Hg) as ->.
  rewrite run_get_graph by done. cbv zeta.
  eexists _, _, _. split; [done|]. split; [apply deref_local|].
  set (g := retained (hpo_network σ) S) in *.
  assert (NoDup (node_ids g)) as Hnd.
  { unfold g. rewrite node_ids_retained_filter. apply NoDup_filter, Hwf. }
  unfold relabel_nodes. cbn [nodes].
  assert (prod_map (relabel (id_to_name_of g)) id <$> nodes g =
          (λ nd, (name nd.2, nd.2)) <$> nodes g) as ->.
  { apply list_fmap_ext. intros i [n d] Hi. unfold prod_map, relabel. simpl.
    rewrite (id_to_name_node g n d); [done|done|by eapply list_elem_of_lookup_2|].
    intros m e alts Hme Ha. apply (Halt n m e alts); [|done..].
    apply list_elem_of_fmap. exists (n, d). split; [done|].
    by eapply list_elem_of_lookup_2. }
  rewrite dict_from_items_NoDup; [done|]. simpl.
  by rewrite <- list_fmap_compose.
Qed.

Lemma get_graph_display_names_witness :
  wf_graph (hpo_network toy_world) ∧
  ∃ r σ1 g r' σ2 g',
    get_graph ["HP:0000729"; "HP:0002125"] true toy_world = (Ok r, σ1) ∧
    deref r σ1 = (Ok g, σ1) ∧
    NoDup ((λ nd, name nd.2) <$> nodes g) ∧
    get_graph ["HP:0000729"; "HP:0002125"] false toy_world = (Ok r', σ2) ∧
    deref r' σ2 = (Ok g', σ2) ∧
    nodes g' = (λ nd, (name nd.2, nd.2)) <$> nodes g.
Proof.
  split; [exact toy_network_wf|].
  assert (∃ r σ1 g,
            get_graph ["HP:0000729"; "HP:0002125"] true toy_world = (Ok r, σ1) ∧
            deref r σ1 = (Ok g, σ1) ∧
            NoDup ((λ nd, name nd.2) <$> nodes g) ∧
            Forall (λ n, Forall (λ me, n ∉ default [] (alt_id me.2)) (nodes g))
                   (node_ids g)) as (r & σ1 & g & Hrun & Hg & Hnames & Halt).
  { eexists _, _, _. split; [by vm_compute|]. split; [by vm_compute|].
    split; apply (bool_decide_unpack _); by vm_compute. }
  destruct (get_graph_display_names toy_world σ1 _ r g toy_network_wf Hrun Hg Hnames)
    as (r' & σ2 & g' & Hrun' & Hg' & Hnodes).
  { intros n m e alts Hn Hme Ha. rewrite Forall_forall in Halt.
    pose proof (Halt n Hn) as Hrow. rewrite Forall_forall in Hrow.
    specialize (Hrow (m, e) Hme). simpl in Hrow. by rewrite Ha in Hrow. }
  exists r, σ1, g, r', σ2, g'.
  exact (conj Hrun (conj Hg (conj Hnames (conj Hrun' (conj Hg' Hnodes))))).
Defined.

(** ** The alias index: names and identifiers *)

(** The two dictionaries of lines 127-128. *)
Definition name_to_id_of (G : DiGraph) : gmap string string :=
  foldl (λ m node, <[name node.2 := node.1]> m) ∅ (nodes G).

Definition temp_dict_of (G : DiGraph) : gmap string string :=
  foldl (λ m kv, <[kv.2 := kv.1]> m) ∅ (map_to_list (name_to_id_of G)).

Lemma build_alias_index_unfold G :
  build_alias_index G =
  apply_writes (init_writes (nodes G)) (temp_dict_of G ∪ name_to_id_of G).
Proof. unfold build_alias_index. cbv zeta. apply init_loop_writes. Qed.

Lemma apply_writes_lookup_inv ws (m : gmap string string) k v :
  apply_writes ws m !! k = Some v → (k, v) ∈ ws ∨ m !! k = Some v.
Proof.
  revert m. induction ws as [|[k' v'] ws IH]; intros m; [by right|].
  cbn [apply_writes foldl fst snd]. fold (apply_writes ws (<[k':=v']> m)).
  intros [Hin|Hm]%IH; [left; by right|].
  rewrite lookup_insert in Hm. case_decide as Hk; [|by right].
  injection Hm as <-. subst. left. by left.
Qed.

(** When a key is written at all, its value is one of the values written
    to it. *)
Lemma apply_writes_lookup_written ws (m : gmap string string) k v0 v :
  (k, v0) ∈ ws → apply_writes ws m !! k = Some v → (k, v) ∈ ws.
Proof.
  induction ws as [|[k' v'] ws IH] using rev_ind; intros Hin.
  - by apply elem_of_nil in Hin.
  - rewrite apply_writes_app. cbn [apply_writes foldl fst snd].
    rewrite lookup_insert. case_decide as Hk.
    + intros [= <-]. subst. apply elem_of_app. right. by left.
    + intros Hl. apply elem_of_app. left. apply IH; [|done].
      apply elem_of_app in Hin as [?|Hin]; [done|].
      apply list_elem_of_singleton in Hin. congruence.
Qed.

Lemma name_to_id_writes G :
  name_to_id_of G = apply_writes ((λ nd, (name nd.2, nd.1)) <$> nodes G) ∅.
Proof.
  unfold name_to_id_of.
  by rewrite <- (foldl_insert_items (λ nd : string * node_data, (name nd.2, nd.1))).
Qed.

Lemma name_to_id_inv G k n :
  name_to_id_of G !! k = Some n → ∃ d, (n, d) ∈ nodes G ∧ name d = k.
Proof.
  rewrite name_to_id_writes. intros [Hin|Hm]%apply_writes_lookup_inv; [|done].
  apply list_elem_of_fmap in Hin as ([n' d] & [= -> ->] & Hnd). by exists d.
Qed.

Lemma node_data_unique G n d d' :
  NoDup (node_ids G) → (n, d) ∈ nodes G → (n, d') ∈ nodes G → d = d'.
Proof.
  intros Hnd [i Hi]%list_elem_of_lookup [j Hj]%list_elem_of_lookup.
  assert (i = j) as ->.
  { eapply NoDup_lookup; [exact Hnd|..]; unfold node_ids;
      rewrite list_lookup_fmap; [by rewrite Hi|by rewrite Hj]. }
  congruence.
Qed.

Lemma temp_dict_lookup G i k :
  NoDup (node_ids G) →
  temp_dict_of G !! i = Some k ↔ name_to_id_of G !! k = Some i.
Proof.
  intros Hnd. unfold temp_dict_of.
  rewrite (foldl_insert_items (λ kv : string * string, (kv.2, kv.1))).
  split.
  - intros [Hin|Hm]%apply_writes_lookup_inv; [|done].
    apply list_elem_of_fmap in Hin as ([k' i'] & [= -> ->] & Hkv).
    by apply elem_of_map_to_list in Hkv.
  - intros Hk. apply apply_writes_lookup.
    + apply list_elem_of_fmap. exists (k, i). split; [done|].
      by apply elem_of_map_to_list.
    + intros k' ([k'' i'] & [= -> ->] & Hkv%elem_of_map_to_list)%list_elem_of_fmap.
      apply name_to_id_inv in Hk as (d & Hd & <-).
      apply name_to_id_inv in Hkv as (d' & Hd' & <-).
      by rewrite (node_data_unique G _ d d' Hnd Hd Hd').
Qed.

(** No node lists [k] among its synonyms or its alternate identifiers. *)
Definition no_alias (G : DiGraph) (k : string) : Prop :=
  ∀ n d, (n, d) ∈ nodes G →
         (k ∉ default [] (synonyms d)) ∧ (k ∉ default [] (alt_id d)).

Lemma build_alias_index_base G k :
  no_alias G k →
  build_alias_index G !! k = (temp_dict_of G ∪ name_to_id_of G) !! k.
Proof.
  intros Hno. rewrite build_alias_index_unfold. apply apply_writes_lookup_none.
  intros v (n & d & Hnd & H)%elem_of_init_writes.
  destruct (Hno n d Hnd) as [Hs Ha]. by destruct H as [[? _]|[? _]].
Qed.

(** X16. For a node whose display name no other node has and is not itself
    an identifier, when neither its identifier nor its name is a synonym or
    an alternate identifier, the alias index maps the name to the identifier
    and the identifier back to the name. *)
Theorem alias_index_round_trip (G : DiGraph) (n : string) (d : node_data) :
  NoDup (node_ids G) → (n, d) ∈ nodes G →
  (∀ n' d', (n', d') ∈ nodes G → name d' = name d → n' = n) →
  name d ∉ node_ids G →
  no_alias G n → no_alias G (name d) →
  build_alias_index G !! name d = Some n ∧
  build_alias_index G !! n = Some (name d).
Proof.
  intros Hnd Hin Huniq Hname Hno_n Hno_name.
  assert (name_to_id_of G !! name d = Some n) as Hn2i.
  { rewrite name_to_id_writes. apply apply_writes_lookup.
    - apply list_elem_of_fmap. by exists (n, d).
    - intros v' ([n' d'] & [= Heq ->] & Hnd')%list_elem_of_fmap.
      by apply (Huniq n' d'). }
  rewrite !build_alias_index_base by done. split.
  - rewrite lookup_union_r; [done|].
    destruct (temp_dict_of G !! name d) as [k|] eqn:Ht; [|done].
    apply (temp_dict_lookup G _ _ Hnd) in Ht.
    apply name_to_id_inv in Ht as (d' & Hd' & _). destruct Hname.
    apply list_elem_of_fmap. by exists (name d, d').
  - apply lookup_union_Some_l. by apply temp_dict_lookup.
Qed.

(** X17. When a later node has the same display name as a node, the
    identifier of the earlier node gets no entry in the alias index, unless
    it is also a name, a synonym or an alternate identifier: the dictionary
    from names keeps one identifier per name, the last, and only that one is
    mapped back. *)
Theorem alias_index_shared_name
    (G : DiGraph) (before after : list (string * node_data))
    (n1 n2 : string) (d1 d2 : node_data) :
  NoDup (node_ids G) →
  nodes G = before ++ (n1, d1) :: after →
  (n2, d2) ∈ after → name d2 = name d1 →
  (∀ n d, (n, d) ∈ nodes G → name d ≠ n1) →
  no_alias G n1 →
  build_alias_index G !! n1 = None.
Proof.
  intros Hnd Hnodes Hin2 Hname Hnot_name Hno.
  rewrite build_alias_index_base by done.
  apply lookup_union_None. split.
  - destruct (temp_dict_of G !! n1) as [k|] eqn:Ht; [|done]. exfalso.
    apply (temp_dict_lookup G _ _ Hnd) in Ht.
    pose proof Ht as (d & Hd & <-)%name_to_id_inv.
    assert ((n1, d1) ∈ nodes G) as Hin1.
    { rewrite Hnodes. apply elem_of_app. right. by left. }
    pose proof (node_data_unique G _ _ _ Hnd Hd Hin1) as ->.
    rewrite name_to_id_writes, Hnodes, fmap_app, fmap_cons, apply_writes_app in Ht.
    cbn [apply_writes foldl fst snd] in Ht.
    fold (apply_writes ((λ nd : string * node_data, (name nd.2, nd.1)) <$> after)) in Ht.
    apply (apply_writes_lookup_written _ _ _ n2) in Ht.
    + apply list_elem_of_fmap in Ht as ([n' d'] & [= _ ->] & Hin').
      unfold node_ids in Hnd. rewrite Hnodes, fmap_app, fmap_cons in Hnd.
      apply NoDup_app in Hnd as (_ & _ & Hnd). apply NoDup_cons in Hnd as [Hnd _].
      apply Hnd. apply list_elem_of_fmap. by exists (n', d').
    + apply list_elem_of_fmap. exists (n2, d2). split; [|done]. simpl. by rewrite Hname.
  - destruct (name_to_id_of G !! n1) as [n|] eqn:Hl; [|done].
    apply name_to_id_inv in Hl as (d & Hd & Hname'). by destruct (Hnot_name n d).
Qed.

(** Two terms that share a display name. *)
Definition homonym_graph : DiGraph :=
  Graph [("HP:0000001", term "All");
         ("HP:0000005", term "Mode of inheritance");
         ("HP:0000006", term "Mode of inheritance")]
        [("HP:0000001", "HP:0000005"); ("HP:0000001", "HP:0000006")].

Lemma no_alias_Forall G k :
  Forall (λ nd, (k ∉ default [] (synonyms nd.2)) ∧ (k ∉ default [] (alt_id nd.2)))
         (nodes G) →
  no_alias G k.
Proof. intros H n d Hnd. rewrite Forall_forall in H. exact (H (n, d) Hnd). Qed.

Lemma alias_index_round_trip_witness :
  let d := term "Intellectual disability" in
  NoDup (node_ids toy_network) ∧ ("HP:0001249", d) ∈ nodes toy_network ∧
  build_alias_index toy_network !! "Intellectual disability" = Some "HP:0001249" ∧
  build_alias_index toy_network !! "HP:0001249" = Some "Intellectual disability".
Proof.
  intros d.
  assert (NoDup (node_ids toy_network)) as Hnd by apply toy_network_wf.
  assert (("HP:0001249", d) ∈ nodes toy_network) as Hin
    by (apply (bool_decide_unpack _); by vm_compute).
  split; [exact Hnd|]. split; [exact Hin|].
  apply (alias_index_round_trip toy_network "HP:0001249" d Hnd Hin).
  - assert (Forall (λ nd, name nd.2 = name d → nd.1 = "HP:0001249")
                   (nodes toy_network)) as H
      by (apply (bool_decide_unpack _); by vm_compute).
    rewrite Forall_forall in H. intros n' d' Hnd'. exact (H (n', d') Hnd').
  - apply (bool_decide_unpack _). by vm_compute.
  - apply no_alias_Forall. apply (bool_decide_unpack _). by vm_compute.
  - apply no_alias_Forall. apply (bool_decide_unpack _). by vm_compute.
Defined.

Lemma alias_index_shared_name_witness :
  NoDup (node_ids homonym_graph) ∧
  build_alias_index homonym_graph !! "Mode of inheritance" = Some "HP:0000006" ∧
  build_alias_index homonym_graph !! "HP:0000006" = Some "Mode of inheritance" ∧
  build_alias_index homonym_graph !! "HP:0000005" = None.
Proof.
  assert (NoDup (node_ids homonym_graph)) as Hnd
    by (apply (bool_decide_unpack _); by vm_compute).
  split; [exact Hnd|]. split; [by vm_compute|]. split; [by vm_compute|].
  apply (alias_index_shared_name homonym_graph
           [("HP:0000001", term "All")]
           [("HP:0000006", term "Mode of inheritance")]
           "HP:0000005" "HP:0000006"
           (term "Mode of inheritance") (term "Mode of inheritance") Hnd).
  - reflexivity.
  - by left.
  - reflexivity.
  - assert (Forall (λ nd, name nd.2 ≠ "HP:0000005") (nodes homonym_graph)) as H
      by (apply (bool_decide_unpack _); by vm_compute).
    rewrite Forall_forall in H. intros n d Hin. exact (H (n, d) Hin).
  - apply no_alias_Forall. apply (bool_decide_unpack _). by vm_compute.
Defined.

(** ** [calc_sim_scores]: failures, range, [nan], a single test index *)

Lemma np_getitem_raise {A} (a : list A) i e :
  np_getitem a i = Raise e → e = IndexError ∧ ¬ valid_index (length a) i.
Proof.
  intros H. split.
  - unfold np_getitem in H. cbv zeta in H.
    destruct (bool_decide (0 ≤ _ < _)%Z); [|congruence].
    destruct (a !! _); congruence.
  - intros Hv. destruct a as [|x a'].
    + unfold valid_index in Hv. simpl in Hv. lia.
    + by rewrite (np_getitem_valid x) in H.
Qed.

Lemma np_take_raise {A} (a : list A) idx e :
  np_take a idx = Raise e →
  e = IndexError ∧ ¬ Forall (valid_index (length a)) idx.
Proof.
  unfold np_take. induction idx as [|i idx IH]; simpl; [done|].
  destruct (np_getitem a i) as [v|e'] eqn:Hi.
  - destruct (result_map _ idx) as [vs|e'']; [done|]. intros [= <-].
    destruct (IH eq_refl) as [-> Hn]. split; [done|].
    intros [_ ?]%Forall_cons. by apply Hn.
  - intros [= <-]. apply np_getitem_raise in Hi as [-> Hn]. split; [done|].
    intros [? _]%Forall_cons. by apply Hn.
Qed.

(** What [calc_sim_scores] returns when numpy accepts its arguments. *)
Lemma run_calc_sim_scores (sim_mat : list (list Qc)) n train_index test_index y_train :
  square n sim_mat →
  Forall (valid_index n) train_index →
  Forall (valid_index n) (index_list test_index) →
  length y_train = length train_index →
  calc_sim_scores sim_mat train_index test_index y_train =
  Ok ((λ i, features_of (getz [] sim_mat i) train_index y_train) <$> train_index,
      (λ i, features_of (getz [] sim_mat i) train_index y_train)
        <$> index_list test_index).
Proof.
  intros Hsq Htrain Htest Hlen. pose proof Hsq as [Hn Hrows].
  assert (np_take_cols sim_mat train_index =
          Ok ((λ r : list Qc, getz 0%Qc r <$> train_index) <$> sim_mat)) as Hcols.
  { apply result_map_total. intros r Hr. apply np_take_valid. by rewrite (Hrows r Hr). }
  assert (∀ i, valid_index n i →
            np_getitem ((λ r : list Qc, getz 0%Qc r <$> train_index) <$> sim_mat) i =
            Ok (getz 0%Qc (getz [] sim_mat i) <$> train_index)) as Hrow.
  { intros i Hi.
    apply (np_getitem_fmap (λ r : list Qc, getz 0%Qc r <$> train_index)).
    apply np_getitem_valid. by rewrite Hn. }
  assert (∀ idx, Forall (valid_index n) idx →
            np_take ((λ r : list Qc, getz 0%Qc r <$> train_index) <$> sim_mat) idx =
            Ok ((λ i, getz 0%Qc (getz [] sim_mat i) <$> train_index) <$> idx))
    as Htake.
  { intros idx Hidx. apply result_map_total. intros i Hi. apply Hrow.
    rewrite Forall_forall in Hidx. by apply Hidx. }
  unfold calc_sim_scores. cbv zeta. rewrite Hcols, (Htake _ Htrain).
  unfold masked_row_means.
  rewrite !length_fmap, !(bool_decide_eq_true_2 _ Hlen).
  pose proof (block_features sim_mat n train_index y_train train_index
                Hsq Htrain Htrain Hlen) as Htr. cbv zeta in Htr.
  pose proof (block_features sim_mat n train_index y_train (index_list test_index)
                Hsq Htrain Htest Hlen) as Hte. cbv zeta in Hte.
  destruct test_index as [idx|i]; cbn [index_list] in *.
  - by rewrite (Htake _ Htest), Htr, Hte.
  - apply Forall_cons in Htest as Hi. destruct Hi as [Hi _].
    rewrite (Hrow i Hi), Htr. cbn [fmap list_fmap] in Hte |- *. by rewrite Hte.
Qed.

#[global] Instance valid_index_dec n i : Decision (valid_index n i).
Proof. unfold valid_index. apply _. Defined.

Lemma np_getitem_ok_valid {A} (a : list A) i v :
  np_getitem a i = Ok v → valid_index (length a) i.
Proof.
  unfold np_getitem, valid_index. cbv zeta.
  destruct (bool_decide (0 ≤ _ < _)%Z) eqn:Hj; [|done]. intros _.
  apply bool_decide_eq_true_1 in Hj. case_bool_decide; lia.
Qed.

Lemma np_take_ok_valid {A} (a : list A) idx vs :
  np_take a idx = Ok vs → Forall (valid_index (length a)) idx.
Proof.
  unfold np_take. revert vs. induction idx as [|i idx IH]; intros vs; simpl.
  - intros _. constructor.
  - destruct (np_getitem a i) as [v|] eqn:Hi; [|done].
    destruct (result_map _ idx) as [vs'|] eqn:Hvs; [|done]. intros _.
    constructor; [by eapply np_getitem_ok_valid|by eapply IH].
Qed.

(** The three ways [calc_sim_scores] fails. *)
Lemma calc_sim_scores_bad_train (sim_mat : list (list Qc)) n train_index test_index y_train :
  square n sim_mat → ¬ Forall (valid_index n) train_index →
  calc_sim_scores sim_mat train_index test_index y_train = Raise IndexError.
Proof.
  intros [Hn Hrows] Hbad. unfold calc_sim_scores. cbv zeta.
  destruct (np_take_cols sim_mat train_index) as [cols|e] eqn:Hcols.
  - destruct sim_mat as [|r0 rest].
    + unfold np_take_cols in Hcols. simpl in Hcols. injection Hcols as <-.
      simpl in Hn. subst n.
      destruct (np_take [] train_index) as [vs|e] eqn:Ht.
      * apply np_take_ok_valid in Ht. by destruct Hbad.
      * by apply np_take_raise in Ht as [-> _].
    + unfold np_take_cols in Hcols. simpl in Hcols.
      destruct (np_take r0 train_index) as [v|e] eqn:Hr0; [|done].
      apply np_take_ok_valid in Hr0. rewrite (Hrows r0) in Hr0 by (by left).
      by destruct Hbad.
  - unfold np_take_cols in Hcols. clear -Hcols.
    induction sim_mat as [|r rest IH]; simpl in Hcols; [done|].
    destruct (np_take r train_index) as [v|e'] eqn:Hr.
    + destruct (result_map _ rest); [done|]. injection Hcols as <-. by apply IH.
    + injection Hcols as <-. by apply np_take_raise in Hr as [-> _].
Qed.

Lemma calc_sim_scores_bad_test (sim_mat : list (list Qc)) n train_index test_index y_train :
  square n sim_mat → Forall (valid_index n) train_index →
  ¬ Forall (valid_index n) (index_list test_index) →
  calc_sim_scores sim_mat train_index test_index y_train = Raise IndexError.
Proof.
  intros [Hn Hrows] Htrain Hbad. unfold calc_sim_scores. cbv zeta.
  assert (np_take_cols sim_mat train_index =
          Ok ((λ r : list Qc, getz 0%Qc r <$> train_index) <$> sim_mat)) as ->.
  { apply result_map_total. intros r Hr. apply np_take_valid. by rewrite (Hrows r Hr). }
  destruct (np_take _ train_index) as [sim_mat_train|e] eqn:Htr.
  - destruct test_index as [idx|i]; cbn [index_list] in Hbad.
    + destruct (np_take _ idx) as [vs|e] eqn:Hte.
      * apply np_take_ok_valid in Hte. rewrite length_fmap, Hn in Hte. by destruct Hbad.
      * by apply np_take_raise in Hte as [-> _].
    + destruct (np_getitem _ i) as [v|e] eqn:Hte.
      * apply np_getitem_ok_valid in Hte. rewrite length_fmap, Hn in Hte.
        destruct Hbad. constructor; [done|constructor].
      * by apply np_getitem_raise in Hte as [-> _].
  - by apply np_take_raise in Htr as [-> _].
Qed.

Lemma calc_sim_scores_bad_labels (sim_mat : list (list Qc)) n train_index test_index y_train :
  square n sim_mat → Forall (valid_index n) train_index →
  Forall (valid_index n) (index_list test_index) →
  length y_train ≠ length train_index →
  calc_sim_scores sim_mat train_index test_index y_train = Raise IndexError.
Proof.
  intros [Hn Hrows] Htrain Htest Hbad. unfold calc_sim_scores. cbv zeta.
  assert (np_take_cols sim_mat train_index =
          Ok ((λ r : list Qc, getz 0%Qc r <$> train_index) <$> sim_mat)) as ->.
  { apply result_map_total. intros r Hr. apply np_take_valid. by rewrite (Hrows r Hr). }
  assert (∀ idx, Forall (valid_index n) idx →
            ∃ vs, np_take ((λ r : list Qc, getz 0%Qc r <$> train_index) <$> sim_mat) idx
                  = Ok vs) as Htake.
  { intros idx Hidx. eexists. apply (np_take_valid []).
    by rewrite length_fmap, Hn. }
  destruct (Htake _ Htrain) as [tr ->].
  unfold masked_row_means. rewrite !length_fmap.
  rewrite !(bool_decide_eq_false_2 _ Hbad).
  destruct test_index as [idx|i]; cbn [index_list] in Htest.
  - by destruct (Htake _ Htest) as [te ->].
  - destruct (np_getitem _ i) as [v|e] eqn:Hi; [done|].
    apply np_getitem_raise in Hi as [_ Hi]. destruct Hi.
    rewrite length_fmap, Hn. by apply Forall_cons in Htest as [? _].
Qed.

(** X18. On a square matrix [calc_sim_scores] raises nothing but
    [IndexError], and raises exactly when a training or test index is out of
    the bounds numpy accepts or the number of labels is not the number of
    training indices. *)
Theorem calc_sim_scores_raises
    (sim_mat : list (list Qc)) (n : nat) (train_index : list Z) (test_index : index)
    (y_train : list Z) :
  square n sim_mat →
  (∀ e, calc_sim_scores sim_mat train_index test_index y_train = Raise e →
        e = IndexError) ∧
  ((∃ e, calc_sim_scores sim_mat train_index test_index y_train = Raise e) ↔
   ¬ (Forall (valid_index n) train_index ∧
      Forall (valid_index n) (index_list test_index) ∧
      length y_train = length train_index)).
Proof.
  intros Hsq.
  destruct (decide (Forall (valid_index n) train_index)) as [Htrain|Htrain].
  2: { rewrite (calc_sim_scores_bad_train _ n) by done.
       split; [by intros e [= <-]|]. split; [|by eexists]. intros _ [? _]. done. }
  destruct (decide (Forall (valid_index n) (index_list test_index))) as [Htest|Htest].
  2: { rewrite (calc_sim_scores_bad_test _ n) by done.
       split; [by intros e [= <-]|]. split; [|by eexists]. intros _ (_ & ? & _). done. }
  destruct (decide (length y_train = length train_index)) as [Hlen|Hlen].
  2: { rewrite (calc_sim_scores_bad_labels _ n) by done.
       split; [by intros e [= <-]|]. split; [|by eexists]. intros _ (_ & _ & ?). done. }
  rewrite (run_calc_sim_scores _ n) by done.
  split; [done|]. split; [by intros [e ?]|]. intros H. by destruct H.
Qed.

Lemma calc_sim_scores_raises_witness :
  square 3 toy_sim_mat ∧
  calc_sim_scores toy_sim_mat [0; 3]%Z (IdxArray [1]%Z) [1; 0]%Z = Raise IndexError ∧
  calc_sim_scores toy_sim_mat [0; 1]%Z (IdxArray [-4]%Z) [1; 0]%Z = Raise IndexError ∧
  calc_sim_scores toy_sim_mat [0; 1]%Z (IdxArray [2]%Z) [1]%Z = Raise IndexError.
Proof.
  assert (square 3 toy_sim_mat) as Hsq.
  { split; [reflexivity|]. intros r Hr.
    assert (Forall (λ r, length r = 3) toy_sim_mat) as H by (repeat constructor).
    rewrite Forall_forall in H. by apply H. }
  split; [exact Hsq|].
  assert (∀ train test y,
            ¬ (Forall (valid_index 3) train ∧
               Forall (valid_index 3) (index_list test) ∧ length y = length train) →
            calc_sim_scores toy_sim_mat train test y = Raise IndexError) as Hraise.
  { intros train test y Hbad.
    destruct (calc_sim_scores_raises toy_sim_mat 3 train test y Hsq) as [Hkind Hiff].
    destruct Hiff as [_ Hiff]. destruct (Hiff Hbad) as [e He].
    by rewrite He, (Hkind e He). }
  split; [|split]; apply Hraise.
  - intros [Ht _]. apply Forall_cons in Ht as [_ Ht]. apply Forall_cons in Ht as [Ht _].
    unfold valid_index in Ht. simpl in Ht. lia.
  - intros (_ & Ht & _). apply Forall_cons in Ht as [Ht _].
    unfold valid_index in Ht. simpl in Ht. lia.
  - intros (_ & _ & Hl). simpl in Hl. lia.
Defined.

Lemma calc_sim_scores_ok_inv
    (sim_mat : list (list Qc)) n train_index test_index y_train tr te :
  square n sim_mat →
  calc_sim_scores sim_mat train_index test_index y_train = Ok (tr, te) →
  Forall (valid_index n) train_index ∧
  Forall (valid_index n) (index_list test_index) ∧
  length y_train = length train_index ∧
  tr = (λ i, features_of (getz [] sim_mat i) train_index y_train) <$> train_index ∧
  te = (λ i, features_of (getz [] sim_mat i) train_index y_train)
         <$> index_list test_index.
Proof.
  intros Hsq Hrun.
  destruct (decide (Forall (valid_index n) train_index)) as [Htrain|Htrain].
  2: { by rewrite (calc_sim_scores_bad_train _ n) in Hrun. }
  destruct (decide (Forall (valid_index n) (index_list test_index))) as [Htest|Htest].
  2: { by rewrite (calc_sim_scores_bad_test _ n) in Hrun. }
  destruct (decide (length y_train = length train_index)) as [Hlen|Hlen].
  2: { by rewrite (calc_sim_scores_bad_labels _ n) in Hrun. }
  rewrite (run_calc_sim_scores _ n) in Hrun by done. by injection Hrun as <- <-.
Qed.




Lemma group_sims_nil sims train_index y_train label :
  Forall (valid_index (length sims)) train_index →
  length y_train = length train_index →
  group_sims sims train_index y_train label = [] ↔ label ∉ y_train.
Proof.
  unfold group_sims. revert y_train.
  induction train_index as [|t ts IH]; intros [|y ys] Hv Hlen; try done.
  - split; [intros _; apply not_elem_of_nil|done].
  - apply Forall_cons in Hv as [Ht Hts]. simpl in Hlen.
    cbn [zip zip_with omap list_omap fst snd].
    rewrite (np_getitem_valid 0%Qc sims t Ht).
    specialize (IH ys Hts ltac:(lia)). case_bool_decide as Hy.
    + subst. split; [done|]. intros Hn. destruct Hn. by left.
    + rewrite IH. rewrite not_elem_of_cons. split; [by intros ?|by intros [_ ?]].
Qed.

Lemma np_average_None (l : list Qc) : np_average l = None ↔ l = [].
Proof. by destruct l. Qed.

(** X20. In the tables of [calc_sim_scores] the first column is [nan] in
    every row when no training label is 1 and in no row otherwise, and the
    second column likewise for the label 0. *)
Theorem calc_sim_scores_nan
    (sim_mat : list (list Qc)) (n : nat) (train_index : list Z) (test_index : index)
    (y_train : list Z) (tr te : list (list (option Qc))) :
  square n sim_mat →
  calc_sim_scores sim_mat train_index test_index y_train = Ok (tr, te) →
  ∀ row, row ∈ tr ++ te →
    (row !! 0 = Some None ↔ 1%Z ∉ y_train) ∧
    (row !! 1 = Some None ↔ 0%Z ∉ y_train).
Proof.
  intros Hsq Hrun row Hrow.
  destruct (calc_sim_scores_ok_inv _ _ _ _ _ _ _ Hsq Hrun)
    as (Htrain & Htest & Hlen & -> & ->).
  assert (∃ i, valid_index n i ∧
               row = features_of (getz [] sim_mat i) train_index y_train)
    as (i & Hi & ->).
  { apply elem_of_app in Hrow as [Hrow|Hrow];
      apply list_elem_of_fmap in Hrow as (i & -> & Hin); exists i; split; try done.
    - rewrite Forall_forall in Htrain. by apply Htrain.
    - rewrite Forall_forall in Htest. by apply Htest. }
  destruct Hsq as [Hn Hrows].
  assert (length (getz [] sim_mat i) = n) as Hr.
  { apply Hrows. rewrite <- Hn in Hi.
    pose proof (np_getitem_valid [] sim_mat i Hi) as Hg.
    unfold np_getitem in Hg. cbv zeta in Hg.
    destruct (bool_decide (0 ≤ _ < _)%Z); [|done].
    destruct (sim_mat !! _) eqn:Hl; [|done]. injection Hg as <-.
    by eapply list_elem_of_lookup_2. }
  unfold features_of. cbn [lookup list_lookup].
  rewrite <- !group_sims_nil with (sims := getz [] sim_mat i)
                                  (train_index := train_index); try done.
  - rewrite <- !np_average_None. split; (split; [by intros [= ->]|by intros ->]).
  - by rewrite Hr.
  - by rewrite Hr.
Qed.

(** X21. A single integer as test index gives what the array of that one
    integer gives, result or exception. *)
Theorem calc_sim_scores_scalar_index
    (sim_mat : list (list Qc)) (train_index : list Z) (i : Z) (y_train : list Z) :
  calc_sim_scores sim_mat train_index (IdxScalar i) y_train =
  calc_sim_scores sim_mat train_index (IdxArray [i]) y_train.
Proof.
  unfold calc_sim_scores. cbv zeta.
  destruct (np_take_cols sim_mat train_index) as [cols|]; [|done].
  destruct (np_take cols train_index) as [sim_mat_train|]; [|done].
  unfold np_take at 1. cbn [result_map].
  by destruct (np_getitem cols i).
Qed.

Lemma toy_sim_mat_square : square 3 toy_sim_mat.
Proof.
  split; [reflexivity|]. intros r Hr.
  assert (Forall (λ r, length r = 3) toy_sim_mat) as H by (repeat constructor).
  rewrite Forall_forall in H. by apply H.
Qed.


Lemma calc_sim_scores_nan_witness :
  square 3 toy_sim_mat ∧
  ∃ tr te,
    calc_sim_scores toy_sim_mat [0; 1]%Z (IdxArray [2]%Z) [1; 1]%Z = Ok (tr, te) ∧
    ∀ row, row ∈ tr ++ te →
      (row !! 0 = Some None ↔ 1%Z ∉ [1; 1]%Z) ∧
      (row !! 1 = Some None ↔ 0%Z ∉ [1; 1]%Z).
Proof.
  split; [exact toy_sim_mat_square|].
  assert (∃ tr te, calc_sim_scores toy_sim_mat [0; 1]%Z (IdxArray [2]%Z) [1; 1]%Z
                   = Ok (tr, te)) as (tr & te & Hrun).
  { eexists _, _. by vm_compute. }
  exists tr, te. split; [exact Hrun|].
  exact (calc_sim_scores_nan toy_sim_mat 3 _ _ _ tr te toy_sim_mat_square Hrun).
Defined.

(** ** Further witnesses and the objects of [get_graph] *)

(** A graph whose identifiers are not HPO identifiers, with an alias index
    built from other terms. *)
Definition foreign_network : DiGraph :=
  Graph [("MP:0000001", term "mammalian phenotype")] [].

Definition foreign_world : world := init foreign_network toy_network.

Lemma calc_similarity_raises_witness :
  (∃ t, t ∈ ["MP:0000001"] ++ ["HP:0001250"] ∧
        t ∈ node_ids (hpo_network foreign_world) ∧
        str_contains "HP" t = false ∧
        name_to_id_and_reverse foreign_world !! t = None) ∧
  calc_similarity toy_score ["MP:0000001"] ["HP:0001250"] foreign_world =
    (Raise KeyError, foreign_world).
Proof.
  assert (∃ t, t ∈ ["MP:0000001"] ++ ["HP:0001250"] ∧
               t ∈ node_ids (hpo_network foreign_world) ∧
               str_contains "HP" t = false ∧
               name_to_id_and_reverse foreign_world !! t = None) as Ht.
  { exists "MP:0000001". split; [by left|]. split; [by left|].
    split; by vm_compute. }
  split; [exact Ht|].
  destruct (calc_similarity_raises toy_score foreign_world
              ["MP:0000001"] ["HP:0001250"]) as [Hkind [_ Hraise]].
  destruct (Hraise Ht) as (e & σ' & Hrun).
  destruct (Hkind e σ' Hrun) as [-> ->]. exact Hrun.
Defined.

(** X22. The graph [get_graph] returns is an object of its own: the
    reference is not [self.hpo_network], the objects that existed before the
    call are as they were, and a later mutation through the reference leaves
    the shared graph as it is. *)
Theorem get_graph_private_object
    (σ σ' : world) (S : list string) (hpo_id_as_label : bool) (r : ref) :
  wf_graph (hpo_network σ) →
  get_graph S hpo_id_as_label σ = (Ok r, σ') →
  r ≠ SelfNetwork ∧
  (∀ k g, locals σ !! k = Some g → locals σ' !! k = Some g) ∧
  (∃ g, deref r σ' = (Ok g, σ')) ∧
  ∀ f, hpo_network (mutate r f σ').2 = hpo_network σ.
Proof.
  intros Hwf. rewrite run_get_graph by done. cbv zeta.
  destruct hpo_id_as_label; intros [= <- <-].
  - split; [done|]. split; [|split].
    + intros k g Hk. unfold with_local. simpl. by apply lookup_app_l_Some.
    + eexists. apply deref_local.
    + intros f. by rewrite mutate_local.
  - split; [done|]. split; [|split].
    + intros k g Hk. unfold with_local. simpl.
      by apply lookup_app_l_Some, lookup_app_l_Some.
    + eexists. apply deref_local.
    + intros f. by rewrite mutate_local.
Qed.

Lemma get_graph_private_object_witness :
  wf_graph (hpo_network toy_world) ∧
  ∃ r σ',
    get_graph ["HP:0001250"] false toy_world = (Ok r, σ') ∧
    r ≠ SelfNetwork ∧
    hpo_network (mutate r (remove_nodes_from ["Seizure"]) σ').2 =
      hpo_network toy_world.
Proof.
  split; [exact toy_network_wf|].
  assert (∃ r σ', get_graph ["HP:0001250"] false toy_world = (Ok r, σ'))
    as (r & σ' & Hrun).
  { eexists _, _. by vm_compute. }
  exists r, σ'. split; [exact Hrun|].
  destruct (get_graph_private_object toy_world σ' _ false r toy_network_wf Hrun)
    as (Hr & _ & _ & Hmut).
  split; [exact Hr|apply Hmut].
Defined.

(** X23. A second call of [calc_full_sim_mat] on the same array, in the
    state the first call left, gives the result of the first call and leaves
    the state as it is: what the first call wrote into the alias index does
    not change what is computed. *)
Theorem calc_full_sim_mat_repeatable
    (score : string → string → Qc) (σ : world) (x : list row) :
  calc_full_sim_mat score x (calc_full_sim_mat score x σ).2 =
  calc_full_sim_mat score x σ.
Proof.
  destruct (decide (x = [])) as [->|Hx]; [done|].
  rewrite (calc_full_sim_mat_state score x σ Hx).
  rewrite !run_calc_full_sim_mat by done.
  change (hpo_network (after_filter σ)) with (hpo_network σ).
  by rewrite after_filter_idemp.
Qed.
